(** * Strahlkorper: a star-shaped surface expanded in spherical harmonics

    Shallow embedding of [src/ApparentHorizons/Strahlkorper.hpp].

    The header gives the data members with their default initialisers, the
    inline accessors, [operator==] / [operator!=] and the documentation of the
    storage scheme of the coefficients.  The constructors, [average_radius],
    [radius], [point_is_contained] and the transform engine [YlmSpherepack] are
    only declared there; their models below say so.

    - [Header]    : what the header itself defines, for any scalar type;
    - [IEEE]      : the header over binary64 floats;
    - [Listing]   : positions in duplicate-free lists and sums over lists;
    - [Spectral]  : the storage scheme, the engine interface and the surface
                    operations over the real numbers;
    - [Canonical] : one concrete engine and the results at concrete surfaces;
    - [Equality], [FloatEquality] : [operator==] as a relation on surfaces;
    - [StorageScheme] : the storage scheme as a correspondence.

    Three more files of the repository follow, each in a module of its own:
    - [Cce]       : Actions/BoundaryComputeAndSendToEvolution.hpp;
    - [Intrp]     : Interpolation/InitializeInterpolationTarget.hpp;
    - [BuildInfo] : Informer/InfoAtCompile.cpp. *)

From Stdlib Require Import Reals ZArith List Lia Lra Bool PeanoNat Permutation.
From Stdlib Require Floats String Ascii.
Import ListNotations.

(** ** The header, for any scalar type *)

Module Header.

(** [YlmSpherepack] is constructed from a resolution; only that resolution is
    visible through the header ([ylm_{2, 2}]). *)
Record YlmSpherepack : Type := mkYlm { ylm_l_max : nat; ylm_m_max : nat }.

Section Surface.

(** [double], its constant [0.0] and its [operator==]. *)
Variable D : Type.
Variable dzero : D.
Variable deq : D -> D -> bool.

(** [YlmSpherepack::physical_size()] as a function of the resolution; the
    engine is not part of the sources, so the function is a parameter. *)
Variable physical_size_of : nat -> nat -> nat.

Definition DataVector : Type := list D.

(** [std::array<double, 3>] *)
Definition array3 : Type := (D * D * D)%type.

(** The private data members, in declaration order.  [size_t] is modelled by
    [nat]: the header performs no arithmetic on the two resolutions.  The
    template parameter [Frame] is a tag that keeps surfaces of different
    frames apart at compile time; one frame is fixed throughout. *)
Record Strahlkorper : Type := mkStrahlkorper {
  l_max_ : nat;
  m_max_ : nat;
  ylm_ : YlmSpherepack;
  center_ : array3;
  strahlkorper_coefs_ : DataVector
}.

Definition physical_size (y : YlmSpherepack) : nat :=
  physical_size_of (ylm_l_max y) (ylm_m_max y).

(** [Strahlkorper() = default]: every member takes its default initialiser,
    [l_max_{2}, m_max_{2}], [ylm_{2, 2}], [center_{{0.0, 0.0, 0.0}}] and
    [strahlkorper_coefs_ = DataVector(ylm_.physical_size(), 0.0)]. *)
Definition Strahlkorper_default : Strahlkorper :=
  let y := mkYlm 2 2 in
  {| l_max_ := 2;
     m_max_ := 2;
     ylm_ := y;
     center_ := (dzero, dzero, dzero);
     strahlkorper_coefs_ := repeat dzero (physical_size y) |}.

(** The inline accessors. *)
Definition coefficients (s : Strahlkorper) : DataVector := strahlkorper_coefs_ s.
Definition center (s : Strahlkorper) : array3 := center_ s.
Definition l_max (s : Strahlkorper) : nat := l_max_ s.
Definition m_max (s : Strahlkorper) : nat := m_max_ s.
Definition ylm_spherepack (s : Strahlkorper) : YlmSpherepack := ylm_ s.

(** The non-const [coefficients()] hands out a [DataVector&].  Whatever the
    caller does through that reference turns the stored vector into another
    one; [upd] is that change.  Nothing else of the object is reachable
    through the reference. *)
Definition coefficients_mut (s : Strahlkorper) (upd : DataVector -> DataVector)
  : Strahlkorper :=
  {| l_max_ := l_max_ s;
     m_max_ := m_max_ s;
     ylm_ := ylm_ s;
     center_ := center_ s;
     strahlkorper_coefs_ := upd (strahlkorper_coefs_ s) |}.

(** Two uses of the reference: storing one element, [s.coefficients()[i] = x]
    (an index outside the vector is not a defined access in the source; the
    model leaves the vector alone there), and assigning a whole vector,
    [s.coefficients() = v]. *)
Fixpoint store (i : nat) (x : D) (v : DataVector) : DataVector :=
  match v, i with
  | [], _ => []
  | _ :: r, O => x :: r
  | y :: r, S j => y :: store j x r
  end.

Definition assign (v : DataVector) : DataVector -> DataVector := fun _ => v.

(** [operator==] of [std::array<double, 3>]: element by element. *)
Definition array3_eq (a b : array3) : bool :=
  let '(a0, a1, a2) := a in
  let '(b0, b1, b2) := b in
  deq a0 b0 && deq a1 b1 && deq a2 b2.

(** Modelled from the spec: [operator==] of [DataVector] (DataVector.hpp is
    not among the sources) compares every coefficient exactly, so it is the
    scalar comparison applied element by element to vectors of one size. *)
Fixpoint DataVector_eq (a b : DataVector) : bool :=
  match a, b with
  | [], [] => true
  | x :: a', y :: b' => deq x y && DataVector_eq a' b'
  | _, _ => false
  end.

(** [operator==] and [operator!=] of the header. *)
Definition operator_eq (lhs rhs : Strahlkorper) : bool :=
  Nat.eqb (l_max lhs) (l_max rhs) && Nat.eqb (m_max lhs) (m_max rhs) &&
  array3_eq (center lhs) (center rhs) &&
  DataVector_eq (coefficients lhs) (coefficients rhs).

Definition operator_ne (lhs rhs : Strahlkorper) : bool :=
  negb (operator_eq lhs rhs).

(** The invariants of the data model. *)
Definition length_invariant (s : Strahlkorper) : Prop :=
  length (coefficients s) = physical_size_of (l_max s) (m_max s).

Definition well_formed (s : Strahlkorper) : Prop :=
  length_invariant s /\ m_max s <= l_max s /\
  ylm_spherepack s = mkYlm (l_max s) (m_max s).

(** The three kinds of [PUP::er]; an unpacking one carries what is read from
    the stream. *)
Inductive PUP_er : Type :=
| Sizing
| Packing
| Unpacking (l_max m_max : nat) (center : array3) (coefs : DataVector).

(** Modelled from the spec: [pup] (declared in the header, not [const]; its
    body is not among the sources) persists and restores [l_max], [m_max],
    the center and the coefficient vector verbatim.  Sizing and packing read
    the object; unpacking overwrites the four fields with what the stream
    holds, the engine being the one of the restored resolution. *)
Definition pup (s : Strahlkorper) (p : PUP_er) : Strahlkorper :=
  match p with
  | Sizing | Packing => s
  | Unpacking l m c v =>
      {| l_max_ := l; m_max_ := m; ylm_ := mkYlm l m; center_ := c;
         strahlkorper_coefs_ := v |}
  end.

(** What a packing [PUP::er] writes for [s]. *)
Definition packed (s : Strahlkorper) : PUP_er :=
  Unpacking (l_max s) (m_max s) (center s) (coefficients s).

(** Everything a caller can do to an existing object: the public member
    functions, the two comparison operators, and the copy and move
    assignment that the class, which declares neither, gets from the
    language.  The member functions are declared [const] except the second
    [coefficients()] and [pup]. *)
Inductive Operation : Type :=
| CallCoefficientsConst
| CallCoefficients (upd : DataVector -> DataVector)
| CallCenter
| CallPhysicalCenter
| CallAverageRadius
| CallLMax
| CallMMax
| CallRadius (theta phi : D)
| CallPointIsContained (x : array3)
| CallYlmSpherepack
| CallEq (rhs : Strahlkorper)
| CallNe (rhs : Strahlkorper)
| CallPup (p : PUP_er)
| CopyAssign (rhs : Strahlkorper)
| MoveAssign (rhs : Strahlkorper).

(** The object after the call: a [const] member function leaves it as it
    was (the class has no [mutable] member); an implicit assignment is
    member by member, so the object becomes the right-hand side. *)
Definition after (op : Operation) (s : Strahlkorper) : Strahlkorper :=
  match op with
  | CallCoefficients upd => coefficients_mut s upd
  | CallPup p => pup s p
  | CopyAssign rhs | MoveAssign rhs => rhs
  | _ => s
  end.

Fixpoint after_all (ops : list Operation) (s : Strahlkorper) : Strahlkorper :=
  match ops with
  | [] => s
  | op :: rest => after_all rest (after op s)
  end.

(** Does the call keep the length of the vector it is applied to?  For a
    call that puts other members in place, the resolution the length is
    measured against is to stay as well. *)
Definition keeps_length (op : Operation) (s : Strahlkorper) : Prop :=
  match op with
  | CallCoefficients upd => length (upd (coefficients s)) = length (coefficients s)
  | CallPup _ | CopyAssign _ | MoveAssign _ =>
      l_max (after op s) = l_max s /\ m_max (after op s) = m_max s /\
      length (coefficients (after op s)) = length (coefficients s)
  | _ => True
  end.

(** *** Facts about the element-wise comparisons *)

Lemma array3_eq_true (a b : array3) :
  array3_eq a b = true <->
  deq (fst (fst a)) (fst (fst b)) = true /\
  deq (snd (fst a)) (snd (fst b)) = true /\
  deq (snd a) (snd b) = true.
Proof.
  destruct a as [[a0 a1] a2], b as [[b0 b1] b2]; simpl.
  rewrite !andb_true_iff. tauto.
Qed.

Lemma DataVector_eq_true (a b : DataVector) :
  DataVector_eq a b = true <->
  length a = length b /\
  forall i, i < length a -> deq (nth i a dzero) (nth i b dzero) = true.
Proof.
  revert b; induction a as [|x a IH]; intros [|y b]; simpl.
  - split; [intros _; split; [reflexivity | intros i Hi; lia] | reflexivity].
  - split; [discriminate | intros [H _]; discriminate].
  - split; [discriminate | intros [H _]; discriminate].
  - rewrite andb_true_iff, IH. split.
    + intros [Hxy [Hlen Hnth]]. split; [now f_equal|].
      intros [|i] Hi; [assumption | apply Hnth; lia].
    + intros [Hlen Hnth]. split; [apply (Hnth 0); lia|].
      split; [now injection Hlen|].
      intros i Hi. apply (Hnth (S i)). lia.
Qed.

Lemma store_length (i : nat) (x : D) (v : DataVector) :
  length (store i x v) = length v.
Proof.
  revert i; induction v as [|y v IH]; intros [|i]; simpl; auto.
Qed.


Lemma store_nth_same (i : nat) (x : D) (v : DataVector) :
  i < length v -> nth i (store i x v) dzero = x.
Proof.
  revert i; induction v as [|y v IH]; intros [|i] Hi; simpl in *; try lia; auto.
  apply IH. lia.
Qed.

(** Where the scalar comparison decides identity, so do the two
    element-wise ones. *)
Definition exact_at (x : D) : Prop := forall y, deq x y = true <-> x = y.

(** The scalars an object stores. *)
Definition scalars (s : Strahlkorper) : list D :=
  let '(c0, c1, c2) := center s in c0 :: c1 :: c2 :: coefficients s.

Lemma array3_eq_exact (a b : array3) :
  exact_at (fst (fst a)) -> exact_at (snd (fst a)) -> exact_at (snd a) ->
  (array3_eq a b = true <-> a = b).
Proof.
  intros H0 H1 H2. rewrite array3_eq_true, (H0 _), (H1 _), (H2 _).
  destruct a as [[a0 a1] a2], b as [[b0 b1] b2]; simpl.
  split; [intros (-> & -> & ->); reflexivity | intros H; inversion H; auto].
Qed.

Lemma DataVector_eq_exact (a b : DataVector) :
  Forall exact_at a -> (DataVector_eq a b = true <-> a = b).
Proof.
  intros Ha; revert b; induction Ha as [|x a Hx Ha IH]; intros [|y b]; simpl;
    try (split; [discriminate | intros H; discriminate]).
  - split; reflexivity.
  - rewrite andb_true_iff, (Hx y), IH.
    split; [intros [-> ->]; reflexivity | intros H; inversion H; auto].
Qed.

(** *** Equality *)

Lemma operator_ne_negates (lhs rhs : Strahlkorper) :
  operator_ne lhs rhs = negb (operator_eq lhs rhs).
Proof. reflexivity. Qed.

(** C6 (as amended).  [lhs == rhs] holds exactly when the two resolutions are
    equal and the centers and the coefficient vectors compare equal element
    by element under the comparison of the scalar type (the vectors having
    one size); where that comparison decides identity on the scalars [lhs]
    stores, [lhs == rhs] holds exactly when the four fields are identical,
    whichever way the two objects were built. *)
Theorem operator_eq_elementwise (lhs rhs : Strahlkorper) :
  (operator_eq lhs rhs = true <->
     l_max lhs = l_max rhs /\
     m_max lhs = m_max rhs /\
     (deq (fst (fst (center lhs))) (fst (fst (center rhs))) = true /\
      deq (snd (fst (center lhs))) (snd (fst (center rhs))) = true /\
      deq (snd (center lhs)) (snd (center rhs)) = true) /\
     (length (coefficients lhs) = length (coefficients rhs) /\
      forall i, i < length (coefficients lhs) ->
        deq (nth i (coefficients lhs) dzero) (nth i (coefficients rhs) dzero) = true)) /\
  (Forall exact_at (scalars lhs) ->
     (operator_eq lhs rhs = true <->
        l_max lhs = l_max rhs /\ m_max lhs = m_max rhs /\
        center lhs = center rhs /\ coefficients lhs = coefficients rhs)).
Proof.
  unfold operator_eq. split.
  - rewrite !andb_true_iff, !Nat.eqb_eq, array3_eq_true, DataVector_eq_true. tauto.
  - unfold scalars. destruct (center lhs) as [[c0 c1] c2] eqn:Hc. intros Hexact.
    inversion Hexact as [|? ? H0 Hex1]; subst.
    inversion Hex1 as [|? ? H1 Hex2]; subst.
    inversion Hex2 as [|? ? H2 Hcoefs]; subst.
    rewrite !andb_true_iff, !Nat.eqb_eq, (DataVector_eq_exact _ (coefficients rhs) Hcoefs).
    rewrite (array3_eq_exact (c0, c1, c2) (center rhs) H0 H1 H2). tauto.
Qed.

(** *** The frame condition *)

Definition is_const_call (op : Operation) : bool :=
  match op with
  | CallCoefficients _ | CallPup _ | CopyAssign _ | MoveAssign _ => false
  | _ => true
  end.

(** The calls that put other members in place of the object's. *)
Definition replaces_object (op : Operation) : bool :=
  match op with
  | CallPup (Unpacking _ _ _ _) | CopyAssign _ | MoveAssign _ => true
  | _ => false
  end.

(** The calls that leave the object as it was: the [const] ones, and [pup]
    when it sizes or packs. *)
Definition reads_only (op : Operation) : bool :=
  match op with
  | CallPup Sizing | CallPup Packing => true
  | _ => is_const_call op
  end.

Lemma after_frame (op : Operation) (s : Strahlkorper) :
  replaces_object op = false ->
  l_max (after op s) = l_max s /\ m_max (after op s) = m_max s /\
  center (after op s) = center s /\ ylm_spherepack (after op s) = ylm_spherepack s.
Proof.
  destruct op as [|upd| | | | | |t p|x| |rhs|rhs|[| |l m c v]|rhs|rhs]; simpl;
    intros H; try discriminate; auto.
Qed.

Lemma after_reads_only (op : Operation) (s : Strahlkorper) :
  reads_only op = true -> after op s = s.
Proof.
  destruct op as [|upd| | | | | |t p|x| |rhs|rhs|[| |l m c v]|rhs|rhs]; simpl;
    intros H; try reflexivity; discriminate.
Qed.

Lemma after_const (op : Operation) (s : Strahlkorper) :
  is_const_call op = true -> after op s = s.
Proof. destruct op; simpl; intros H; try reflexivity; discriminate. Qed.

(** C9 (as amended).  No sequence of calls that leaves out the unpacking
    [pup] and the assignments changes [l_max()], [m_max()] or [center()]; a
    [const] call, and [pup] when it sizes or packs, leaves the whole object
    as it was, and what is done through the reference that the non-const
    [coefficients()] returns replaces the coefficient vector and nothing
    else.  The calls left out do change them: after an unpacking [pup] the
    three are what the stream holds, after a copy or move assignment the
    object is the right-hand side. *)
Theorem only_replacement_changes_resolution_and_center
  (ops : list Operation) (s : Strahlkorper) :
  (forallb (fun op => negb (replaces_object op)) ops = true ->
   l_max (after_all ops s) = l_max s /\
   m_max (after_all ops s) = m_max s /\
   center (after_all ops s) = center s) /\
  (forallb reads_only ops = true -> after_all ops s = s) /\
  (forall upd,
     l_max (coefficients_mut s upd) = l_max s /\
     m_max (coefficients_mut s upd) = m_max s /\
     center (coefficients_mut s upd) = center s /\
     coefficients (coefficients_mut s upd) = upd (coefficients s)) /\
  (forall l m c v,
     l_max (after (CallPup (Unpacking l m c v)) s) = l /\
     m_max (after (CallPup (Unpacking l m c v)) s) = m /\
     center (after (CallPup (Unpacking l m c v)) s) = c /\
     coefficients (after (CallPup (Unpacking l m c v)) s) = v) /\
  (forall rhs, after (CopyAssign rhs) s = rhs /\ after (MoveAssign rhs) s = rhs).
Proof.
  split; [|split; [|split; [|split]]].
  - revert s; induction ops as [|op ops IH]; intros s; simpl; [auto|].
    rewrite andb_true_iff, negb_true_iff. intros [Hop Hops].
    destruct (IH (after op s) Hops) as (Hl & Hm & Hc).
    destruct (after_frame op s Hop) as (Hl' & Hm' & Hc' & _).
    rewrite Hl, Hm, Hc. auto.
  - revert s; induction ops as [|op ops IH]; intros s; simpl; [reflexivity|].
    rewrite andb_true_iff. intros [Hop Hops].
    rewrite (after_reads_only op s Hop). now apply IH.
  - intros upd. repeat split.
  - intros l m c v. repeat split.
  - intros rhs. split; reflexivity.
Qed.

(** Restoring what was packed gives the object back when its engine is the
    one of its resolution. *)
Lemma pup_round_trip (s t : Strahlkorper) :
  ylm_spherepack s = mkYlm (l_max s) (m_max s) -> pup t (packed s) = s.
Proof.
  destruct s as [l m y c v]. unfold ylm_spherepack, l_max, m_max; simpl.
  intros ->. reflexivity.
Qed.

(** *** The length of the coefficient vector *)

Lemma after_keeps_length_invariant (op : Operation) (s : Strahlkorper) :
  keeps_length op s -> length_invariant s -> length_invariant (after op s).
Proof.
  unfold length_invariant.
  destruct op; simpl; auto; try (intros (-> & -> & ->); auto).
  unfold coefficients, l_max, m_max; simpl. intros -> H. exact H.
Qed.

Lemma store_keeps_length (i : nat) (x : D) (s : Strahlkorper) :
  keeps_length (CallCoefficients (store i x)) s.
Proof. simpl. apply store_length. Qed.

(** *** The default constructor *)

Lemma Strahlkorper_default_fields :
  l_max Strahlkorper_default = 2 /\
  m_max Strahlkorper_default = 2 /\
  center Strahlkorper_default = (dzero, dzero, dzero) /\
  coefficients Strahlkorper_default = repeat dzero (physical_size_of 2 2) /\
  length (coefficients Strahlkorper_default) = physical_size_of 2 2 /\
  (forall i, nth i (coefficients Strahlkorper_default) dzero = dzero) /\
  well_formed Strahlkorper_default.
Proof.
  unfold well_formed, length_invariant, coefficients, l_max, m_max, center,
    ylm_spherepack, Strahlkorper_default, physical_size; simpl.
  rewrite repeat_length. repeat split; auto.
  intros i. destruct (Nat.lt_ge_cases i (physical_size_of 2 2)) as [Hi|Hi].
  - apply nth_repeat_lt. exact Hi.
  - apply nth_overflow. rewrite repeat_length. exact Hi.
Qed.

End Surface.

Arguments l_max {D} s.
Arguments m_max {D} s.
Arguments center {D} s.
Arguments coefficients {D} s.
Arguments ylm_spherepack {D} s.
Arguments coefficients_mut {D} s upd.
Arguments store {D} i x v.
Arguments assign {D} v _.
Arguments mkStrahlkorper {D}.
Arguments l_max_ {D}.
Arguments m_max_ {D}.
Arguments ylm_ {D}.
Arguments center_ {D}.
Arguments strahlkorper_coefs_ {D}.
Arguments length_invariant {D} physical_size_of s.
Arguments well_formed {D} physical_size_of s.
Arguments CallCoefficients {D} upd.
Arguments after {D} op s.
Arguments after_all {D} ops s.
Arguments scalars {D} s.
Arguments Unpacking {D} l_max m_max center coefs.
Arguments CallPup {D} p.
Arguments CopyAssign {D} rhs.
Arguments MoveAssign {D} rhs.
Arguments replaces_object {D} op.
Arguments reads_only {D} op.

End Header.

(** ** The header over binary64 floats *)

Module IEEE.

Import Header.

(** [double] with the comparison the hardware performs: a NaN differs from
    everything, itself included, and the two zeros are equal. *)
Definition double : Type := PrimFloat.float.
Definition double_eq (x y : double) : bool := PrimFloat.eqb x y.

Definition Surface : Type := Strahlkorper double.

(** [x == x && x != 0.0]: neither a NaN nor a zero. *)
Definition plain (x : double) : bool :=
  double_eq x x && negb (double_eq x PrimFloat.zero).

(** A surface as the sphere constructor's arguments can describe it: any
    center is accepted, a NaN component included. *)
Definition nan_centered : Surface :=
  {| l_max_ := 2; m_max_ := 2; ylm_ := mkYlm 2 2;
     center_ := (PrimFloat.nan, PrimFloat.zero, PrimFloat.zero);
     strahlkorper_coefs_ := [PrimFloat.one; PrimFloat.zero; PrimFloat.zero] |}.

Definition centered_at (c0 : double) : Surface :=
  {| l_max_ := 2; m_max_ := 2; ylm_ := mkYlm 2 2;
     center_ := (c0, PrimFloat.zero, PrimFloat.zero);
     strahlkorper_coefs_ := [PrimFloat.one; PrimFloat.zero; PrimFloat.zero] |}.

Definition off_origin : Surface :=
  {| l_max_ := 2; m_max_ := 2; ylm_ := mkYlm 2 2;
     center_ := (PrimFloat.one, PrimFloat.two, PrimFloat.infinity);
     strahlkorper_coefs_ := [PrimFloat.two; PrimFloat.one; PrimFloat.neg_infinity] |}.

Lemma SFeqb_finite_eq s m e y :
  SpecFloat.SFeqb (SpecFloat.S754_finite s m e) y = true ->
  y = SpecFloat.S754_finite s m e.
Proof.
  unfold SpecFloat.SFeqb.
  destruct y as [s'|s'| |s' m' e']; simpl;
    try (destruct s; discriminate); try (destruct s'; discriminate).
  change (PosDef.Pos.compare_cont Eq m m') with (Pos.compare m m').
  destruct (Z.compare_spec e e') as [He|He|He];
    destruct (Pos.compare_spec m m') as [Hm|Hm|Hm];
    destruct s, s'; simpl; try discriminate; intros _; now subst.
Qed.

Lemma SFeqb_infinity_eq s y :
  SpecFloat.SFeqb (SpecFloat.S754_infinity s) y = true ->
  y = SpecFloat.S754_infinity s.
Proof.
  unfold SpecFloat.SFeqb.
  destruct y as [s'|s'| |s' m' e']; simpl;
    try (destruct s; discriminate); try (destruct s'; discriminate).
  destruct s, s'; try discriminate; reflexivity.
Qed.

(** On a scalar that is neither a NaN nor a zero the comparison decides
    identity. *)
Lemma plain_exact (x : double) :
  plain x = true -> exact_at double double_eq x.
Proof.
  unfold plain, double_eq, exact_at.
  rewrite andb_true_iff, negb_true_iff, !FloatAxioms.eqb_spec.
  intros [Hrefl Hnz] y. rewrite FloatAxioms.eqb_spec. split.
  - intros Heq. apply FloatAxioms.Prim2SF_inj.
    destruct (FloatOps.Prim2SF x) as [s|s| |s m e] eqn:Hx.
    + vm_compute in Hnz. discriminate.
    + symmetry. now apply SFeqb_infinity_eq.
    + discriminate.
    + symmetry. now apply SFeqb_finite_eq.
  - intros <-. exact Hrefl.
Qed.

Lemma nan_is_not_plain : plain PrimFloat.nan = false.
Proof. vm_compute. reflexivity. Qed.

Lemma zero_is_not_plain : plain PrimFloat.zero = false.
Proof. vm_compute. reflexivity. Qed.

(** An object whose center has a NaN component is not equal to itself. *)
Lemma nan_centered_differs_from_itself :
  operator_eq double double_eq nan_centered nan_centered = false /\
  operator_ne double double_eq nan_centered nan_centered = true.
Proof. split; vm_compute; reflexivity. Qed.

(** Two objects whose centers differ in the sign of a zero compare equal. *)
Lemma signed_zero_centers_compare_equal :
  operator_eq double double_eq
    (centered_at PrimFloat.zero) (centered_at (PrimFloat.opp PrimFloat.zero)) = true /\
  center (centered_at PrimFloat.zero) <>
  center (centered_at (PrimFloat.opp PrimFloat.zero)).
Proof.
  split; [vm_compute; reflexivity|].
  intros H.
  assert (K : PrimFloat.classify PrimFloat.zero =
              PrimFloat.classify (PrimFloat.opp PrimFloat.zero)).
  { change PrimFloat.zero with (fst (fst (center (centered_at PrimFloat.zero)))) at 1.
    rewrite H. reflexivity. }
  vm_compute in K. discriminate.
Qed.

(** C6, the claim as stated fails: [==] is not identity of the four fields.
    The object with a NaN in its center has the same fields as itself and
    is not [==] to itself. *)
Lemma operator_eq_is_not_field_identity :
  ~ (forall lhs rhs : Surface,
       operator_eq double double_eq lhs rhs = true <->
       l_max lhs = l_max rhs /\ m_max lhs = m_max rhs /\
       center lhs = center rhs /\ coefficients lhs = coefficients rhs).
Proof.
  intros H.
  assert (K : operator_eq double double_eq nan_centered nan_centered = true).
  { apply H. repeat split. }
  vm_compute in K. discriminate.
Qed.

Lemma off_origin_scalars_plain :
  Forall (exact_at double double_eq) (scalars off_origin).
Proof.
  unfold scalars; simpl.
  repeat (constructor; [apply plain_exact; vm_compute; reflexivity|]).
  constructor.
Qed.

(** The amended C6 at an object without NaN and without zero. *)
Lemma operator_eq_elementwise_witness :
  Forall (exact_at double double_eq) (scalars off_origin) /\
  (operator_eq double double_eq off_origin off_origin = true <->
   l_max off_origin = l_max off_origin /\ m_max off_origin = m_max off_origin /\
   center off_origin = center off_origin /\
   coefficients off_origin = coefficients off_origin).
Proof.
  split; [exact off_origin_scalars_plain|].
  exact (proj2 (operator_eq_elementwise double PrimFloat.zero double_eq off_origin off_origin)
           off_origin_scalars_plain).
Defined.

(** The default-constructed object over floats, whatever [physical_size]
    is: every coefficient is [0.0]. *)
Lemma default_constructed_over_floats (physical_size_of : nat -> nat -> nat) :
  coefficients (Strahlkorper_default double PrimFloat.zero physical_size_of) =
  repeat PrimFloat.zero (physical_size_of 2 2) /\
  center (Strahlkorper_default double PrimFloat.zero physical_size_of) =
  (PrimFloat.zero, PrimFloat.zero, PrimFloat.zero).
Proof. split; reflexivity. Qed.

(** The amended C9 at two sequences of calls on an object over floats: one
    that reads only, and one that stores through [coefficients()] between a
    sizing and a packing [pup]. *)
Lemma only_replacement_changes_resolution_and_center_witness :
  forallb reads_only [CallLMax double; CallPup (Packing double)] = true /\
  after_all [CallLMax double; CallPup (Packing double)] off_origin = off_origin /\
  forallb (fun op => negb (replaces_object op))
    [CallPup (Sizing double); CallCoefficients (store 1 PrimFloat.infinity);
     CallPup (Packing double); CallPointIsContained double (center off_origin)]
  = true /\
  center (after_all
            [CallPup (Sizing double); CallCoefficients (store 1 PrimFloat.infinity);
             CallPup (Packing double); CallPointIsContained double (center off_origin)]
            off_origin)
  = center off_origin.
Proof.
  split; [reflexivity|]. split; [|split; [reflexivity|]].
  - exact (proj1 (proj2 (only_replacement_changes_resolution_and_center double
             [CallLMax double; CallPup (Packing double)] off_origin)) eq_refl).
  - exact (proj2 (proj2 (proj1 (only_replacement_changes_resolution_and_center double
             [CallPup (Sizing double); CallCoefficients (store 1 PrimFloat.infinity);
              CallPup (Packing double);
              CallPointIsContained double (center off_origin)] off_origin) eq_refl))).
Defined.

(** A surface of another resolution and center. *)
Definition finer : Surface :=
  {| l_max_ := 3; m_max_ := 3; ylm_ := mkYlm 3 3;
     center_ := (PrimFloat.two, PrimFloat.two, PrimFloat.two);
     strahlkorper_coefs_ := [PrimFloat.one] |}.

(** C9, the claim as stated fails: assigning another surface to an
    existing one changes its [l_max], [m_max] and center, and so does
    unpacking one into it. *)
Lemma assignment_changes_resolution_and_center :
  l_max (after (CopyAssign finer) off_origin) <> l_max off_origin /\
  m_max (after (CopyAssign finer) off_origin) <> m_max off_origin /\
  center (after (CopyAssign finer) off_origin) <> center off_origin /\
  l_max (after (CallPup (packed double finer)) off_origin) <> l_max off_origin /\
  center (after (CallPup (packed double finer)) off_origin) <> center off_origin.
Proof.
  split; [|split; [|split; [|split]]]; simpl; discriminate.
Qed.

End IEEE.

(** ** Positions in a list and sums over a list *)

Module Listing.

Section Position.

Variable A : Type.
Variable eqb : A -> A -> bool.
Hypothesis eqb_spec : forall x y, eqb x y = true <-> x = y.

(** The first place at which [x] stands in [ls]. *)
Fixpoint position (x : A) (ls : list A) : option nat :=
  match ls with
  | [] => None
  | y :: rest => if eqb x y then Some 0 else option_map S (position x rest)
  end.

Lemma eqb_refl (x : A) : eqb x x = true.
Proof. now apply eqb_spec. Qed.

Lemma eqb_neq (x y : A) : x <> y -> eqb x y = false.
Proof.
  intros H. destruct (eqb x y) eqn:E; [|reflexivity].
  apply eqb_spec in E. contradiction.
Qed.

Lemma position_nth_error (x : A) (ls : list A) (i : nat) :
  position x ls = Some i -> nth_error ls i = Some x.
Proof.
  revert i; induction ls as [|y ls IH]; intros i; simpl; [discriminate|].
  destruct (eqb x y) eqn:E.
  - intros [= <-]. apply eqb_spec in E. now subst.
  - destruct (position x ls) as [j|]; simpl; [|discriminate].
    intros [= <-]. now apply IH.
Qed.


Lemma position_In (x : A) (ls : list A) :
  In x ls -> exists i, position x ls = Some i.
Proof.
  induction ls as [|y ls IH]; simpl; [contradiction|].
  intros [->|Hin].
  - rewrite eqb_refl. now exists 0.
  - destruct (eqb x y); [now exists 0|].
    destruct (IH Hin) as [i ->]. now exists (S i).
Qed.

Lemma position_not_In (x : A) (ls : list A) :
  ~ In x ls -> position x ls = None.
Proof.
  intros Hn. destruct (position x ls) as [i|] eqn:E; [|reflexivity].
  exfalso. apply Hn. eapply nth_error_In. eapply position_nth_error. exact E.
Qed.

Lemma position_NoDup (x : A) (ls : list A) (i : nat) :
  NoDup ls -> nth_error ls i = Some x -> position x ls = Some i.
Proof.
  intros Hnd; revert i; induction Hnd as [|y ls Hy Hnd IH]; intros [|i]; simpl;
    try discriminate.
  - intros [= ->]. now rewrite eqb_refl.
  - intros Hnth. rewrite eqb_neq.
    + now rewrite (IH _ Hnth).
    + intros ->. apply Hy. eapply nth_error_In. exact Hnth.
Qed.

(** Reading a vector at the position of a key. *)
Definition lookup {B : Type} (d : B) (ls : list A) (v : list B) (x : A) : B :=
  match position x ls with
  | Some i => nth i v d
  | None => d
  end.

Lemma lookup_map {B : Type} (d : B) (g : A -> B) (ls : list A) (x : A) :
  In x ls -> lookup d ls (map g ls) x = g x.
Proof.
  intros Hin. unfold lookup. destruct (position_In _ _ Hin) as [i Hi]. rewrite Hi.
  apply position_nth_error in Hi.
  apply nth_error_nth. rewrite nth_error_map, Hi. reflexivity.
Qed.

Lemma lookup_not_In {B : Type} (d : B) (ls : list A) (v : list B) (x : A) :
  ~ In x ls -> lookup d ls v x = d.
Proof. intros H. unfold lookup. now rewrite position_not_In. Qed.

Lemma map_lookup_prefix {B : Type} (d : B) (pre ls : list A) (v : list B) :
  NoDup (pre ++ ls) -> length v = length ls ->
  map (fun x => match position x (pre ++ ls) with
                | Some i => nth (i - length pre) v d
                | None => d
                end) ls = v.
Proof.
  revert pre v; induction ls as [|y ls IH]; intros pre [|b v] Hnd Hlen;
    simpl in *; try discriminate; [reflexivity|].
  f_equal.
  - rewrite (position_NoDup y (pre ++ y :: ls) (length pre) Hnd).
    + now rewrite Nat.sub_diag.
    + rewrite nth_error_app2, Nat.sub_diag by lia. reflexivity.
  - specialize (IH (pre ++ [y]) v).
    rewrite <- app_assoc in IH; simpl in IH.
    assert (Hlen' : length v = length ls) by lia.
    etransitivity; [|exact (IH Hnd Hlen')].
    apply map_ext_in. intros x Hx.
    destruct (position x (pre ++ y :: ls)) as [i|] eqn:E; [|reflexivity].
    assert (Hi : length pre < i).
    { pose proof (position_nth_error _ _ _ E) as Hnth.
      destruct (In_nth_error _ _ Hx) as [j Hj].
      assert (Hpos : position x (pre ++ y :: ls) = Some (length pre + S j)).
      { apply position_NoDup; [exact Hnd|].
        rewrite nth_error_app2 by lia.
        replace (length pre + S j - length pre) with (S j) by lia. exact Hj. }
      rewrite Hpos in E. injection E as <-. lia. }
    rewrite length_app; simpl.
    destruct (i - length pre) as [|k] eqn:Hk; [lia|].
    replace (i - (length pre + 1)) with k by lia. reflexivity.
Qed.

(** Reading back every position of a duplicate-free key list gives the
    vector itself. *)
Lemma map_lookup {B : Type} (d : B) (ls : list A) (v : list B) :
  NoDup ls -> length v = length ls -> map (lookup d ls v) ls = v.
Proof.
  intros Hnd Hlen.
  etransitivity; [|exact (map_lookup_prefix d [] ls v Hnd Hlen)].
  apply map_ext. intros x. unfold lookup; simpl.
  destruct (position x ls) as [i|]; [|reflexivity].
  now rewrite Nat.sub_0_r.
Qed.

End Position.

Arguments position {A} eqb x ls.
Arguments lookup {A} eqb {B} d ls v x.

Open Scope R_scope.

Section Sums.

Variable A : Type.

(** The sum of [g] over the elements of a list. *)
Fixpoint Rsum (g : A -> R) (ls : list A) : R :=
  match ls with
  | [] => 0
  | x :: rest => g x + Rsum g rest
  end.

Lemma Rsum_ext (g h : A -> R) (ls : list A) :
  (forall x, In x ls -> g x = h x) -> Rsum g ls = Rsum h ls.
Proof.
  induction ls as [|y ls IH]; simpl; intros H; [reflexivity|].
  rewrite (H y), IH by auto. reflexivity.
Qed.

Lemma Rsum_zero (g : A -> R) (ls : list A) :
  (forall x, In x ls -> g x = 0) -> Rsum g ls = 0.
Proof.
  induction ls as [|y ls IH]; simpl; intros H; [reflexivity|].
  rewrite (H y), IH by auto. lra.
Qed.

Lemma Rsum_Permutation (g : A -> R) (ls ls' : list A) :
  Permutation ls ls' -> Rsum g ls = Rsum g ls'.
Proof.
  induction 1; simpl; lra.
Qed.

Lemma Rsum_filter (g : A -> R) (keep : A -> bool) (ls : list A) :
  Rsum (fun x => if keep x then g x else 0) ls = Rsum g (filter keep ls).
Proof.
  induction ls as [|y ls IH]; simpl; [reflexivity|].
  destruct (keep y); simpl; rewrite IH; lra.
Qed.

(** A sum with one term that may differ from zero. *)
Lemma Rsum_single (g : A -> R) (a : A) (ls : list A) :
  NoDup ls -> In a ls -> (forall b, In b ls -> b <> a -> g b = 0) ->
  Rsum g ls = g a.
Proof.
  induction 1 as [|y ls Hy Hnd IH]; simpl; [contradiction|].
  intros [->|Hin] Hz.
  - rewrite Rsum_zero; [lra|].
    intros b Hb. apply Hz; [auto|]. intros ->. contradiction.
  - rewrite IH by auto. rewrite (Hz y); [lra|auto|].
    intros ->. contradiction.
Qed.

End Sums.

Arguments Rsum {A} g ls.

End Listing.

(** ** The storage scheme, the engine and the surface operations

    [double] is idealised as [R] in this part: the statements are about the
    exact values of the formulas, not about rounding. *)

Module Spectral.

Import Header Listing.
Open Scope R_scope.

(** *** Complex numbers *)

Definition C : Type := (R * R)%type.
Definition Re (z : C) : R := fst z.
Definition Im (z : C) : R := snd z.
Definition Cadd (a b : C) : C := (Re a + Re b, Im a + Im b).
Definition Cmul (a b : C) : C :=
  (Re a * Re b - Im a * Im b, Re a * Im b + Im a * Re b).
Definition Cconj (a : C) : C := (Re a, - Im a).
Definition Cscale (k : R) (a : C) : C := (k * Re a, k * Im a).

(** *** Errors *)

Inductive Error : Type :=
| InvalidResolution
| SampleCountMismatch
| SizeMismatch
| IndexOutOfRange.

Inductive Result (A : Type) : Type :=
| Ok (a : A)
| Err (e : Error).

Arguments Ok {A} a.
Arguments Err {A} e.

(** *** The storage scheme documented at [coefficients()] *)

(** [(-1)^m], for either sign of [m]. *)
Definition minus_one_pow (m : Z) : R := if Z.even m then 1 else -1.

Definition sqrt_2_over_pi : R := sqrt (2 / PI).
Definition sqrt_pi_over_2 : R := sqrt (PI / 2).
Definition sqrt_4pi : R := sqrt (4 * PI).

(** [coefficients()(l,m) = (-1)^m sqrt(2/pi) Re(F^{lm})] for [m >= 0] and
    [(-1)^m sqrt(2/pi) Im(F^{lm})] for [m < 0]. *)
Definition stored_value (m : Z) (F : C) : R :=
  minus_one_pow m * sqrt_2_over_pi * (if (0 <=? m)%Z then Re F else Im F).

(** The component of [F^{lm}] that the slot [(l,m)] determines, the other
    component left at zero. *)
Definition unpack_value (m : Z) (p : R) : C :=
  if (0 <=? m)%Z
  then (minus_one_pow m * sqrt_pi_over_2 * p, 0)
  else (0, minus_one_pow m * sqrt_pi_over_2 * p).

(** The pairs [(l,m)] the codec accepts: [0 <= l <= l_max], [-l <= m <= l]. *)
Definition codec_valid (l_max : nat) (l : nat) (m : Z) : bool :=
  (l <=? l_max)%nat && (Z.abs m <=? Z.of_nat l)%Z.

(** Modelled from the spec: the codec functions [pack] and [unpack] (the
    sources hold the formula only, in the comment above [coefficients()]);
    they implement the formula and signal [IndexOutOfRange] outside
    [[0,l_max] x [-l,l]]. *)
Definition pack (l_max : nat) (l : nat) (m : Z) (F : C) : Result R :=
  if codec_valid l_max l m then Ok (stored_value m F) else Err IndexOutOfRange.

(** Modelled from the spec: [unpack], the inverse of [pack] (in no source
    file): the formula solved for the component it stores. *)
Definition unpack (l_max : nat) (l : nat) (m : Z) (p : R) : Result C :=
  if codec_valid l_max l m then Ok (unpack_value m p) else Err IndexOutOfRange.

(** The reality condition [F^{l,-m} = (-1)^m conj(F^{lm})] on a family of
    coefficients, and what it says of a single coefficient: at [m = 0] the
    coefficient is its own conjugate. *)
Definition real_valued (F : nat -> Z -> C) : Prop :=
  forall l m, F l (- m)%Z = Cscale (minus_one_pow m) (Cconj (F l m)).

Definition reality_ok (m : Z) (v : C) : Prop := m = 0%Z -> Im v = 0.

(** [F^{lm}] from the packed family: the slot [(l,m)] gives one component,
    the slot [(l,-m)] through the reality condition the other. *)
Definition expansion_coefficient (p : nat -> Z -> R) (l : nat) (m : Z) : C :=
  if (m =? 0)%Z
  then unpack_value 0 (p l 0%Z)
  else Cadd (unpack_value m (p l m))
            (Cscale (minus_one_pow m) (Cconj (unpack_value (- m) (p l (- m)%Z)))).

(** *** Arithmetic of the constants *)

Lemma PI_gt_3 : 3 < PI.
Proof. generalize PI2_3_2. lra. Qed.

Lemma sqrt_4pi_pos : 0 < sqrt_4pi.
Proof. apply sqrt_lt_R0. generalize PI_gt_3. lra. Qed.

Lemma sqrt_pi_over_2_gt_1 : 1 < sqrt_pi_over_2.
Proof.
  unfold sqrt_pi_over_2. rewrite <- sqrt_1 at 1.
  apply sqrt_lt_1_alt. generalize PI2_1. lra.
Qed.

Lemma sqrt_pi_2_times_sqrt_2_pi : sqrt_pi_over_2 * sqrt_2_over_pi = 1.
Proof.
  unfold sqrt_pi_over_2, sqrt_2_over_pi.
  rewrite <- sqrt_mult_alt by (generalize PI_gt_3; lra).
  replace (PI / 2 * (2 / PI)) with 1 by (field; generalize PI_gt_3; lra).
  apply sqrt_1.
Qed.

Lemma minus_one_pow_sqr (m : Z) : minus_one_pow m * minus_one_pow m = 1.
Proof. unfold minus_one_pow. destruct (Z.even m); lra. Qed.

Lemma minus_one_pow_opp (m : Z) : minus_one_pow (- m) = minus_one_pow m.
Proof. unfold minus_one_pow. now rewrite Z.even_opp. Qed.

Lemma minus_one_pow_0 : minus_one_pow 0 = 1.
Proof. reflexivity. Qed.

(** Equalities of pairs of reals up to the sign [(-1)^m]. *)
Ltac signs m :=
  rewrite ?minus_one_pow_opp; unfold minus_one_pow;
  destruct (Z.even m); f_equal; ring.

(** Undoing the two factors of the storage scheme. *)
Lemma unscale (m : Z) (x : R) :
  minus_one_pow m * sqrt_pi_over_2 * (minus_one_pow m * sqrt_2_over_pi * x) = x.
Proof.
  transitivity ((minus_one_pow m * minus_one_pow m) *
                (sqrt_pi_over_2 * sqrt_2_over_pi) * x); [ring|].
  rewrite minus_one_pow_sqr, sqrt_pi_2_times_sqrt_2_pi. ring.
Qed.

Lemma rescale (m : Z) (x : R) :
  minus_one_pow m * sqrt_2_over_pi * (minus_one_pow m * sqrt_pi_over_2 * x) = x.
Proof.
  transitivity ((minus_one_pow m * minus_one_pow m) *
                (sqrt_pi_over_2 * sqrt_2_over_pi) * x); [ring|].
  rewrite minus_one_pow_sqr, sqrt_pi_2_times_sqrt_2_pi. ring.
Qed.

(** *** The codec *)

(** Packing what was unpacked gives the stored value back. *)
Lemma stored_value_unpack_value (m : Z) (p : R) :
  stored_value m (unpack_value m p) = p.
Proof.
  unfold stored_value, unpack_value.
  destruct (0 <=? m)%Z; simpl; apply rescale.
Qed.

(** Unpacking what was packed keeps the stored component and loses the
    other one. *)
Lemma unpack_value_stored_value (m : Z) (v : C) :
  unpack_value m (stored_value m v) =
  if (0 <=? m)%Z then (Re v, 0) else (0, Im v).
Proof.
  unfold stored_value, unpack_value.
  destruct (0 <=? m)%Z; rewrite unscale; reflexivity.
Qed.

Lemma stored_value_expansion_coefficient (p : nat -> Z -> R) (l : nat) (m : Z) :
  stored_value m (expansion_coefficient p l m) = p l m.
Proof.
  unfold expansion_coefficient.
  destruct (Z.eqb_spec m 0) as [->|Hm]; [apply stored_value_unpack_value|].
  unfold stored_value, unpack_value, Cadd, Cscale, Cconj, Re, Im.
  destruct (Z.leb_spec 0 m) as [Hpos|Hneg].
  - destruct (Z.leb_spec 0 (- m)) as [H|_]; [lia|]. simpl.
    rewrite Rmult_0_r, Rplus_0_r. apply rescale.
  - destruct (Z.leb_spec 0 (- m)) as [_|H]; [|lia]. simpl.
    rewrite Ropp_0, Rmult_0_r, Rplus_0_r. apply rescale.
Qed.

Lemma expansion_coefficient_real_valued (p : nat -> Z -> R) :
  real_valued (expansion_coefficient p).
Proof.
  intros l m. unfold expansion_coefficient.
  destruct (Z.eqb_spec m 0) as [->|Hm].
  - simpl. unfold unpack_value, Cscale, Cconj, Re, Im; simpl.
    rewrite minus_one_pow_0. f_equal; ring.
  - destruct (Z.eqb_spec (- m) 0) as [H|_]; [lia|].
    rewrite Z.opp_involutive.
    unfold unpack_value, Cadd, Cscale, Cconj, Re, Im.
    destruct (Z.leb_spec 0 m) as [Hpos|Hneg];
      [destruct (Z.leb_spec 0 (- m)) as [H|_]; [lia|]
      |destruct (Z.leb_spec 0 (- m)) as [_|H]; [|lia]];
      simpl; signs m.
Qed.

(** A real-valued family is recovered from its stored values. *)
Lemma expansion_coefficient_stored (F : nat -> Z -> C) (l : nat) (m : Z) :
  real_valued F ->
  expansion_coefficient (fun l' m' => stored_value m' (F l' m')) l m = F l m.
Proof.
  intros HF. unfold expansion_coefficient.
  destruct (Z.eqb_spec m 0) as [->|Hm].
  - rewrite unpack_value_stored_value; simpl.
    pose proof (HF l 0%Z) as H0. simpl in H0.
    destruct (F l 0%Z) as [a b] eqn:E.
    unfold Cscale, Cconj, Re, Im in *; simpl in *.
    rewrite minus_one_pow_0 in H0. injection H0 as Hb.
    f_equal. lra.
  - rewrite !unpack_value_stored_value.
    pose proof (HF l m) as Hr.
    destruct (F l m) as [a b] eqn:E.
    unfold Cadd, Cscale, Cconj, Re, Im in *; simpl in *.
    destruct (Z.leb_spec 0 m) as [Hpos|Hneg];
      [destruct (Z.leb_spec 0 (- m)) as [H|_]; [lia|]
      |destruct (Z.leb_spec 0 (- m)) as [_|H]; [|lia]];
      simpl; rewrite Hr; simpl; signs m.
Qed.

(** Sequencing of fallible steps. *)
Definition bind {A B : Type} (r : Result A) (f : A -> Result B) : Result B :=
  match r with
  | Ok a => f a
  | Err e => Err e
  end.

Lemma codec_invalid (l_max l : nat) (m : Z) (v : C) (p : R) :
  codec_valid l_max l m = false ->
  pack l_max l m v = Err IndexOutOfRange /\ unpack l_max l m p = Err IndexOutOfRange.
Proof. intros H. unfold pack, unpack. now rewrite H. Qed.

Lemma codec_valid_opp (l_max l : nat) (m : Z) :
  codec_valid l_max l (- m) = codec_valid l_max l m.
Proof. unfold codec_valid. now rewrite Z.abs_opp. Qed.

(** Two coefficients with one stored value: no function of the stored value
    can return both. *)
Lemma stored_value_forgets :
  stored_value 1 (0, 1) = stored_value 1 (0, 0) /\ (0, 1) <> ((0, 0) : C).
Proof.
  split.
  - unfold stored_value; simpl. ring.
  - intros H. injection H as H. lra.
Qed.

(** C5 (as amended).  For valid [(l,m)]: packing after unpacking returns
    every stored value; unpacking after packing returns the component of [v]
    that the slot stores, the real part for [m >= 0] and the imaginary part
    for [m < 0], and so returns [v] when the other component is zero, as the
    reality condition makes it at [m = 0]; and a coefficient of a real-valued
    family is recovered from the two slots [(l,m)] and [(l,-m)] together. *)
Theorem codec_round_trip (l_max l : nat) (m : Z) :
  codec_valid l_max l m = true ->
  (forall p : R, bind (unpack l_max l m p) (pack l_max l m) = Ok p) /\
  (forall v : C,
     bind (pack l_max l m v) (unpack l_max l m) =
     Ok (if (0 <=? m)%Z then (Re v, 0) else (0, Im v))) /\
  (forall v : C,
     (if (0 <=? m)%Z then Im v else Re v) = 0 ->
     bind (pack l_max l m v) (unpack l_max l m) = Ok v) /\
  (forall v : C,
     m = 0%Z -> reality_ok m v ->
     bind (pack l_max l m v) (unpack l_max l m) = Ok v) /\
  (forall F : nat -> Z -> C,
     real_valued F -> m <> 0%Z ->
     exists p q : R,
       pack l_max l m (F l m) = Ok p /\
       pack l_max l (- m) (F l (- m)%Z) = Ok q /\
       Cadd (unpack_value m p)
            (Cscale (minus_one_pow m) (Cconj (unpack_value (- m) q))) = F l m).
Proof.
  intros Hv.
  assert (Hcomp : forall v : C,
             bind (pack l_max l m v) (unpack l_max l m) =
             Ok (if (0 <=? m)%Z then (Re v, 0) else (0, Im v))).
  { intros v. unfold pack, unpack, bind. rewrite Hv.
    now rewrite unpack_value_stored_value. }
  assert (Hzero : forall v : C,
             (if (0 <=? m)%Z then Im v else Re v) = 0 ->
             bind (pack l_max l m v) (unpack l_max l m) = Ok v).
  { intros [a b] H0. rewrite Hcomp. unfold Re, Im in *; simpl in *.
    destruct (0 <=? m)%Z; now subst. }
  repeat split.
  - intros p. unfold pack, unpack, bind. rewrite Hv.
    now rewrite stored_value_unpack_value.
  - exact Hcomp.
  - exact Hzero.
  - intros v -> Hreal. apply Hzero. simpl. now apply Hreal.
  - intros F HF Hm. unfold pack. rewrite codec_valid_opp, Hv.
    exists (stored_value m (F l m)), (stored_value (- m) (F l (- m)%Z)).
    repeat split.
    pose proof (expansion_coefficient_stored F l m HF) as H.
    unfold expansion_coefficient in H.
    destruct (Z.eqb_spec m 0) as [->|_]; [contradiction|exact H].
Qed.

(** The amended C5 at [(l,m) = (1,1)] with [l_max = 2]. *)
Lemma codec_round_trip_witness :
  codec_valid 2 1 1 = true /\
  bind (unpack 2 1 1 3) (pack 2 1 1) = Ok 3.
Proof.
  split; [reflexivity|].
  exact (proj1 (codec_round_trip 2 1 1 eq_refl) 3).
Defined.

(** C5, the claim as stated fails at [(l,m) = (1,1)] and [v = i]: the
    reality condition relates [v] to the coefficient of [(1,-1)] and puts no
    constraint on [v] itself, and packing keeps the real part of [v] alone. *)
Lemma unpack_pack_is_not_identity :
  codec_valid 1 1 1 = true /\ reality_ok 1 (0, 1) /\
  bind (pack 1 1 1 (0, 1)) (unpack 1 1 1) <> Ok (0, 1).
Proof.
  split; [reflexivity|]. split; [intros H; discriminate|].
  unfold pack, unpack, bind. simpl.
  rewrite unpack_value_stored_value. simpl.
  intros K. injection K as K. lra.
Qed.

(** No choice of [unpack] repairs it. *)
Lemma no_unpack_inverts_pack :
  ~ exists u : nat -> nat -> Z -> R -> Result C,
      forall l_max l m v,
        codec_valid l_max l m = true -> reality_ok m v ->
        bind (pack l_max l m v) (u l_max l m) = Ok v.
Proof.
  intros [u Hu].
  assert (H1 := Hu 1%nat 1%nat 1%Z (0, 1) eq_refl ltac:(intros H; discriminate)).
  assert (H0 := Hu 1%nat 1%nat 1%Z (0, 0) eq_refl ltac:(intros H; discriminate)).
  unfold pack, bind in H0, H1. simpl in H0, H1.
  rewrite (proj1 stored_value_forgets) in H1. rewrite H1 in H0.
  injection H0 as H0. lra.
Qed.

(** *** The transform engine *)

Definition lm : Type := (nat * Z)%type.

Definition lm_eqb (a b : lm) : bool :=
  Nat.eqb (fst a) (fst b) && Z.eqb (snd a) (snd b).

(** The [(l,m)] retained at resolution [(L, M)]: degree at most [L], order
    at most [min l M] in absolute value. *)
Definition stored_lm (L M : nat) (a : lm) : Prop :=
  (fst a <= L)%nat /\ (Z.abs (snd a) <= Z.of_nat (Nat.min (fst a) M))%Z.

Definition stored_lmb (L M : nat) (a : lm) : bool :=
  (fst a <=? L)%nat && (Z.abs (snd a) <=? Z.of_nat (Nat.min (fst a) M))%Z.

(** Modelled from the spec: the transform engine (YlmSpherepack is not among
    the sources).  Its indexing convention is the list of the [(l,m)] in the
    order of their slots, a bijection between the retained [(l,m)] and the
    positions of the coefficient vector; it supplies the harmonics beyond the
    monopole, the number of collocation points and the forward transform,
    whose result has one entry per slot. *)
Record Engine : Type := mkEngine {
  slots : nat -> nat -> list lm;
  slots_NoDup : forall L M, NoDup (slots L M);
  slots_stored : forall L M a, In a (slots L M) <-> stored_lm L M a;
  Y_higher : nat -> Z -> R -> R -> C;
  collocation_count : nat -> nat -> nat;
  forward_transform : nat -> nat -> list R -> list R;
  forward_transform_length : forall L M samples,
    length samples = collocation_count L M ->
    length (forward_transform L M samples) = length (slots L M)
}.

Section WithEngine.

Variable E : Engine.

(** [physical_size(l_max, m_max)]: the required length of the vector. *)
Definition physical_size_of (L M : nat) : nat := length (slots E L M).

(** The index of [(l,m)] in the vector. *)
Definition index (L M : nat) (l : nat) (m : Z) : Result nat :=
  match position lm_eqb (l, m) (slots E L M) with
  | Some i => Ok i
  | None => Err IndexOutOfRange
  end.

(** The usual harmonics: [Y^{00}] is the constant [1/sqrt(4 pi)]. *)
Definition Y (l : nat) (m : Z) (theta phi : R) : C :=
  if lm_eqb (l, m) (0%nat, 0%Z) then (/ sqrt_4pi, 0) else Y_higher E l m theta phi.

(** *** Surfaces over the reals *)

Definition Surface : Type := Strahlkorper R.

Definition Req_bool (x y : R) : bool := if Req_dec_T x y then true else false.

(** The stored coefficient of [(l,m)]. *)
Definition coef (s : Surface) (l : nat) (m : Z) : R :=
  lookup lm_eqb 0 (slots E (l_max s) (m_max s)) (coefficients s) (l, m).

(** The vector that is zero in every slot except the monopole's. *)
Definition monopole_only (L M : nat) (c00 : R) : list R :=
  map (fun a => if lm_eqb a (0%nat, 0%Z) then c00 else 0) (slots E L M).

(** Modelled from the spec: the sphere constructor (Strahlkorper.cpp is not
    among the sources; the header says of it: construct a sphere of radius
    [radius] with a given center).  It fails with [InvalidResolution] if
    [m_max > l_max]; all coefficients are zero except the monopole, whose
    packed value is set so that the radius is [radius] at every angle.
    Under the storage scheme documented at [coefficients()] that value is
    the stored form of [F^{00} = radius * sqrt(4 pi)], which is
    [radius * sqrt 8] (see [monopole_only_evaluates] below). *)
Definition Strahlkorper_sphere (l_max m_max : nat) (radius : R) (center : array3 R)
  : Result Surface :=
  if (l_max <? m_max)%nat then Err InvalidResolution
  else Ok {| l_max_ := l_max;
             m_max_ := m_max;
             ylm_ := mkYlm l_max m_max;
             center_ := center;
             strahlkorper_coefs_ := monopole_only l_max m_max (radius * sqrt 8) |}.

(** Modelled from the spec: the constructor from the radius at the
    collocation points.  It fails with [SampleCountMismatch] if the input
    length is not the grid's point count and applies the forward transform
    otherwise. *)
Definition Strahlkorper_from_samples (l_max m_max : nat)
  (radius_at_collocation_points : list R) (center : array3 R) : Result Surface :=
  if (length radius_at_collocation_points =? collocation_count E l_max m_max)%nat
  then Ok {| l_max_ := l_max;
             m_max_ := m_max;
             ylm_ := mkYlm l_max m_max;
             center_ := center;
             strahlkorper_coefs_ :=
               forward_transform E l_max m_max radius_at_collocation_points |}
  else Err SampleCountMismatch.

(** Modelled from the spec: prolongation or restriction of another surface.
    A slot of the new resolution takes the coefficient of the same [(l,m)]
    of the source where the source retains it and zero otherwise; slots of
    the source that the new resolution does not retain are dropped.  The
    center is copied. *)
Definition Strahlkorper_resample (l_max m_max : nat) (another : Surface) : Surface :=
  {| l_max_ := l_max;
     m_max_ := m_max;
     ylm_ := mkYlm l_max m_max;
     center_ := center another;
     strahlkorper_coefs_ :=
       map (fun a =>
              if stored_lmb (Header.l_max another) (Header.m_max another) a
              then coef another (fst a) (snd a) else 0)
           (slots E l_max m_max) |}.

(** Modelled from the spec: the constructors from another surface with the
    coefficients given explicitly.  Resolution and center are those of the
    other surface, the vector is installed as it is; a vector whose length
    is not [physical_size(l_max, m_max)] is refused with [SizeMismatch].  The
    copying and the moving variant build the same object. *)
Definition Strahlkorper_with_coefs (coefs : list R) (another : Surface)
  : Result Surface :=
  if (length coefs =? physical_size_of (l_max another) (m_max another))%nat
  then Ok {| l_max_ := l_max another;
             m_max_ := m_max another;
             ylm_ := ylm_spherepack another;
             center_ := center another;
             strahlkorper_coefs_ := coefs |}
  else Err SizeMismatch.

(** Modelled from the spec: the moving variant (declared in the header,
    defined in no source file); the object it builds is the same. *)
Definition Strahlkorper_with_coefs_move (coefs : list R) (another : Surface)
  : Result Surface :=
  Strahlkorper_with_coefs coefs another.

(** Modelled from the spec: [average_radius()] is the packed [(0,0)]
    coefficient divided by [sqrt(4 pi)]. *)
Definition average_radius (s : Surface) : R := coef s 0%nat 0%Z / sqrt_4pi.

(** Modelled from the spec: [radius(theta, phi)] evaluates the expansion
    [sum_l sum_m F^{lm} Y^{lm}(theta, phi)] over the retained [(l,m)], the
    [F^{lm}] being those the storage scheme assigns to the stored values. *)
Definition radius (s : Surface) (theta phi : R) : R :=
  Rsum (fun a => Re (Cmul (expansion_coefficient (coef s) (fst a) (snd a))
                          (Y (fst a) (snd a) theta phi)))
       (slots E (l_max s) (m_max s)).

(** [atan2] of the C library. *)
Definition atan2 (y x : R) : R :=
  if Rlt_dec 0 x then atan (y / x)
  else if Rlt_dec x 0
       then (if Rle_dec 0 y then atan (y / x) + PI else atan (y / x) - PI)
       else if Rlt_dec 0 y then PI / 2
            else if Rlt_dec y 0 then - (PI / 2)
                 else 0.

Definition sub3 (x c : array3 R) : array3 R :=
  (fst (fst x) - fst (fst c), snd (fst x) - snd (fst c), snd x - snd c).

Definition norm3 (d : array3 R) : R :=
  sqrt (fst (fst d) * fst (fst d) + snd (fst d) * snd (fst d) + snd d * snd d).

(** Modelled from the spec: [point_is_contained(x)].  With [d = x - center()]
    and [r = |d|], the point is contained when [r = 0] and otherwise exactly
    when [r <= radius(acos(d_z / r), atan2(d_y, d_x))]. *)
Definition point_is_contained (s : Surface) (x : array3 R) : bool :=
  let d := sub3 x (center s) in
  let r := norm3 d in
  if Req_dec_T r 0 then true
  else if Rle_dec r (radius s (acos (snd d / r)) (atan2 (snd (fst d)) (fst (fst d))))
       then true else false.

(** *** The retained [(l,m)] *)

Lemma lm_eqb_spec (a b : lm) : lm_eqb a b = true <-> a = b.
Proof.
  unfold lm_eqb. rewrite andb_true_iff, Nat.eqb_eq, Z.eqb_eq.
  destruct a, b; simpl. split; [intros [-> ->]; reflexivity | intros [= -> ->]; auto].
Qed.

Lemma stored_lmb_spec (L M : nat) (a : lm) :
  stored_lmb L M a = true <-> stored_lm L M a.
Proof.
  unfold stored_lmb, stored_lm. now rewrite andb_true_iff, Nat.leb_le, Z.leb_le.
Qed.

Lemma slots_are_stored (L M : nat) (a : lm) :
  In a (slots E L M) -> stored_lm L M a.
Proof. exact (proj1 (slots_stored E L M a)). Qed.

Lemma stored_in_slots (L M : nat) (a : lm) :
  stored_lm L M a -> In a (slots E L M).
Proof. exact (proj2 (slots_stored E L M a)). Qed.

Lemma monopole_stored (L M : nat) : In (0%nat, 0%Z) (slots E L M).
Proof. apply stored_in_slots. unfold stored_lm; simpl. lia. Qed.

Lemma stored_lm_mono (l_max m_max L M : nat) (a : lm) :
  (l_max <= L)%nat -> (m_max <= M)%nat -> stored_lm l_max m_max a -> stored_lm L M a.
Proof. unfold stored_lm. lia. Qed.

Lemma stored_lm_opp (L M : nat) (l : nat) (m : Z) :
  stored_lm L M (l, m) <-> stored_lm L M (l, (- m)%Z).
Proof. unfold stored_lm; simpl. rewrite Z.abs_opp. tauto. Qed.


Lemma index_not_stored (L M : nat) (l : nat) (m : Z) :
  ~ stored_lm L M (l, m) -> index L M l m = Err IndexOutOfRange.
Proof.
  intros H. unfold index. rewrite position_not_In; [reflexivity | exact lm_eqb_spec |].
  intros Hin. apply H. now apply slots_are_stored.
Qed.

(** *** Reading coefficients *)

Lemma coef_of_map (s : Surface) (g : lm -> R) (a : lm) :
  coefficients s = map g (slots E (l_max s) (m_max s)) ->
  coef s (fst a) (snd a) = if stored_lmb (l_max s) (m_max s) a then g a else 0.
Proof.
  intros Hc. unfold coef. rewrite Hc, <- surjective_pairing.
  destruct (stored_lmb (l_max s) (m_max s) a) eqn:Hst.
  - apply lookup_map; [exact lm_eqb_spec|].
    apply stored_in_slots. now apply stored_lmb_spec.
  - apply lookup_not_In; [exact lm_eqb_spec|].
    intros Hin. apply slots_are_stored, stored_lmb_spec in Hin. congruence.
Qed.

Lemma coef_not_stored (s : Surface) (l : nat) (m : Z) :
  ~ stored_lm (l_max s) (m_max s) (l, m) -> coef s l m = 0.
Proof.
  intros H. unfold coef. apply lookup_not_In; [exact lm_eqb_spec|].
  intros Hin. apply H. now apply slots_are_stored.
Qed.

Lemma expansion_coefficient_zero (p : nat -> Z -> R) (l : nat) (m : Z) :
  p l m = 0 -> p l (- m)%Z = 0 -> expansion_coefficient p l m = (0, 0).
Proof.
  intros H1 H2. unfold expansion_coefficient, unpack_value, Cadd, Cscale, Cconj, Re, Im.
  destruct (Z.eqb_spec m 0) as [->|Hm].
  - simpl in *. rewrite H1. f_equal; ring.
  - rewrite H1, H2. destruct (0 <=? m)%Z, (0 <=? - m)%Z; simpl; f_equal; ring.
Qed.

Lemma expansion_coefficient_ext (p q : nat -> Z -> R) (l : nat) (m : Z) :
  p l m = q l m -> p l (- m)%Z = q l (- m)%Z ->
  expansion_coefficient p l m = expansion_coefficient q l m.
Proof.
  intros H1 H2. unfold expansion_coefficient.
  destruct (Z.eqb_spec m 0) as [->|Hm]; [now rewrite H1 | now rewrite H1, H2].
Qed.

(** *** A vector with the monopole alone *)

Section Monopole.

Variable s : Surface.
Variable c00 : R.
Hypothesis Hmono : coefficients s = monopole_only (l_max s) (m_max s) c00.

Lemma coef_monopole_only (l : nat) (m : Z) :
  coef s l m = if lm_eqb (l, m) (0%nat, 0%Z) then c00 else 0.
Proof.
  pose proof (coef_of_map s _ (l, m) Hmono) as H. simpl in H. rewrite H.
  destruct (stored_lmb (l_max s) (m_max s) (l, m)) eqn:Hst; [reflexivity|].
  destruct (lm_eqb (l, m) (0%nat, 0%Z)) eqn:E0; [|reflexivity].
  apply lm_eqb_spec in E0. injection E0 as -> ->.
  pose proof (monopole_stored (l_max s) (m_max s)) as Hin.
  apply slots_are_stored, stored_lmb_spec in Hin. congruence.
Qed.

Lemma average_radius_monopole_only : average_radius s = c00 / sqrt_4pi.
Proof. unfold average_radius. now rewrite coef_monopole_only. Qed.

(** The expansion of such a vector is the same at every angle. *)
Lemma radius_monopole_only (theta phi : R) :
  radius s theta phi = c00 * sqrt_pi_over_2 / sqrt_4pi.
Proof.
  unfold radius.
  rewrite (Rsum_single lm _ (0%nat, 0%Z));
    [| apply slots_NoDup | apply monopole_stored |].
  - simpl. unfold expansion_coefficient; simpl.
    rewrite coef_monopole_only; simpl.
    unfold Y, unpack_value, Cmul, Re, Im; simpl.
    rewrite minus_one_pow_0. unfold Rdiv. ring.
  - intros [l m] _ Hne. simpl.
    rewrite expansion_coefficient_zero.
    + unfold Cmul, Re, Im; simpl. ring.
    + rewrite coef_monopole_only.
      destruct (lm_eqb (l, m) (0%nat, 0%Z)) eqn:E0; [|reflexivity].
      apply lm_eqb_spec in E0. contradiction.
    + rewrite coef_monopole_only.
      destruct (lm_eqb (l, (- m)%Z) (0%nat, 0%Z)) eqn:E0; [|reflexivity].
      apply lm_eqb_spec in E0. injection E0 as -> Hm.
      exfalso. apply Hne. f_equal. lia.
Qed.

End Monopole.

Lemma sqrt_pi_over_2_over_sqrt_4pi : sqrt_pi_over_2 / sqrt_4pi = / sqrt 8.
Proof.
  unfold sqrt_pi_over_2, sqrt_4pi.
  rewrite <- sqrt_div_alt by (generalize PI_gt_3; lra).
  replace (PI / 2 / (4 * PI)) with (1 / 8) by (field; generalize PI_gt_3; lra).
  rewrite sqrt_div_alt by lra. rewrite sqrt_1. unfold Rdiv. ring.
Qed.

(** *** The sphere constructor *)

Lemma sqrt_8_pos : 0 < sqrt 8.
Proof. apply sqrt_lt_R0. lra. Qed.

(** A vector with the monopole alone evaluates to the packed monopole
    divided by [sqrt 8], at every angle. *)
Lemma monopole_only_evaluates (s : Surface) (c00 theta phi : R) :
  coefficients s = monopole_only (l_max s) (m_max s) c00 ->
  radius s theta phi = c00 / sqrt 8.
Proof.
  intros Hc. rewrite (radius_monopole_only s _ Hc).
  unfold Rdiv at 1. rewrite Rmult_assoc.
  fold (sqrt_pi_over_2 / sqrt_4pi). now rewrite sqrt_pi_over_2_over_sqrt_4pi.
Qed.

(** Such a vector has the radius [rad] exactly when its monopole holds
    [rad * sqrt 8]. *)
Lemma monopole_for_radius (s : Surface) (c00 rad theta phi : R) :
  coefficients s = monopole_only (l_max s) (m_max s) c00 ->
  (radius s theta phi = rad <-> c00 = rad * sqrt 8).
Proof.
  intros Hc. rewrite (monopole_only_evaluates s c00 theta phi Hc).
  pose proof sqrt_8_pos as H8. split.
  - intros <-. field. lra.
  - intros ->. field. lra.
Qed.

(** The factor between [sqrt(4 pi)] and [sqrt 8]. *)
Lemma sqrt_4pi_over_sqrt_8 : sqrt_4pi / sqrt 8 = sqrt_pi_over_2.
Proof.
  unfold sqrt_4pi, sqrt_pi_over_2.
  rewrite <- sqrt_div_alt by lra. f_equal. field.
Qed.

Lemma sqrt_4pi_is_not_sqrt_8 : sqrt_4pi <> sqrt 8.
Proof.
  intros H. pose proof sqrt_4pi_over_sqrt_8 as Hq. rewrite H in Hq.
  pose proof sqrt_8_pos as H8. pose proof sqrt_pi_over_2_gt_1 as H1.
  unfold Rdiv in Hq. rewrite Rinv_r in Hq by lra. lra.
Qed.

(** No monopole serves both readings: with the average radius taken as the
    packed monopole over [sqrt(4 pi)], a vector with the monopole alone has
    the radius [rad] at an angle and the average radius [rad] only for
    [rad = 0]. *)
Lemma no_monopole_serves_both (s : Surface) (c00 rad theta phi : R) :
  coefficients s = monopole_only (l_max s) (m_max s) c00 ->
  average_radius s = rad -> radius s theta phi = rad -> rad = 0.
Proof.
  intros Hc Havg Hrad.
  rewrite (average_radius_monopole_only s c00 Hc) in Havg.
  apply (monopole_for_radius s c00 rad theta phi Hc) in Hrad.
  pose proof sqrt_4pi_pos as H4. pose proof sqrt_4pi_is_not_sqrt_8 as Hne.
  assert (Hc00 : c00 = rad * sqrt_4pi) by (rewrite <- Havg; field; lra).
  assert (Hz : rad * (sqrt_4pi - sqrt 8) = 0) by (rewrite Hrad in Hc00; lra).
  apply Rmult_integral in Hz. destruct Hz as [Hz|Hz]; [exact Hz | lra].
Qed.

Lemma sphere_accepts (L M : nat) (rad : R) (c : array3 R) :
  (M <= L)%nat ->
  Strahlkorper_sphere L M rad c =
  Ok {| l_max_ := L; m_max_ := M; ylm_ := mkYlm L M; center_ := c;
        strahlkorper_coefs_ := monopole_only L M (rad * sqrt 8) |}.
Proof.
  intros H. unfold Strahlkorper_sphere.
  destruct (Nat.ltb_spec L M) as [Hlt|_]; [lia | reflexivity].
Qed.

Lemma sphere_fields (L M : nat) (rad : R) (c : array3 R) (s : Surface) :
  Strahlkorper_sphere L M rad c = Ok s ->
  (M <= L)%nat /\ l_max s = L /\ m_max s = M /\ center s = c /\
  ylm_spherepack s = mkYlm L M /\
  coefficients s = monopole_only (l_max s) (m_max s) (rad * sqrt 8).
Proof.
  unfold Strahlkorper_sphere.
  destruct (Nat.ltb_spec L M) as [Hlt|Hle]; [discriminate|].
  intros [= <-]. simpl. repeat split. exact Hle.
Qed.

Lemma sphere_radius (L M : nat) (rad : R) (c : array3 R) (s : Surface) (theta phi : R) :
  Strahlkorper_sphere L M rad c = Ok s -> radius s theta phi = rad.
Proof.
  intros H. destruct (sphere_fields _ _ _ _ _ H) as (_ & _ & _ & _ & _ & Hc).
  now apply (monopole_for_radius s _ rad theta phi Hc).
Qed.


(** C7.  With [m_max > l_max] the sphere constructor fails with
    [InvalidResolution]; it returns no surface. *)
Theorem sphere_rejects_invalid_resolution (L M : nat) (rad : R) (c : array3 R) :
  (L < M)%nat ->
  Strahlkorper_sphere L M rad c = Err InvalidResolution /\
  (forall s, Strahlkorper_sphere L M rad c <> Ok s).
Proof.
  intros H. unfold Strahlkorper_sphere.
  destruct (Nat.ltb_spec L M) as [_|Hle]; [|lia].
  split; [reflexivity | intros s; discriminate].
Qed.

(** *** The average radius *)



(** *** Containment *)

Lemma norm3_nonneg (d : array3 R) : 0 <= norm3 d.
Proof. apply sqrt_pos. Qed.

Lemma point_is_contained_unfold (s : Surface) (x : array3 R) :
  point_is_contained s x = true <->
  norm3 (sub3 x (center s)) = 0 \/
  norm3 (sub3 x (center s)) <=
    radius s (acos (snd (sub3 x (center s)) / norm3 (sub3 x (center s))))
             (atan2 (snd (fst (sub3 x (center s)))) (fst (fst (sub3 x (center s))))).
Proof.
  unfold point_is_contained.
  destruct (Req_dec_T (norm3 (sub3 x (center s))) 0) as [H0|H0].
  - split; auto.
  - destruct (Rle_dec _ _) as [Hle|Hgt].
    + split; auto.
    + split; [discriminate|]. intros [H|H]; contradiction.
Qed.

Lemma point_is_contained_constant_radius (s : Surface) (x : array3 R) (R0 : R) :
  0 <= R0 -> (forall theta phi, radius s theta phi = R0) ->
  (point_is_contained s x = true <-> norm3 (sub3 x (center s)) <= R0).
Proof.
  intros HR Hrad. rewrite point_is_contained_unfold, Hrad.
  split; [|auto]. intros [H|H]; [rewrite H|]; assumption.
Qed.

Lemma sphere_contains (L M : nat) (R0 : R) (c : array3 R) (s : Surface) (x : array3 R) :
  0 <= R0 -> Strahlkorper_sphere L M R0 c = Ok s ->
  (point_is_contained s x = true <-> norm3 (sub3 x c) <= R0).
Proof.
  intros HR Hs.
  destruct (sphere_fields _ _ _ _ _ Hs) as (_ & _ & _ & Hc & _).
  rewrite <- Hc. apply point_is_contained_constant_radius.
  - exact HR.
  - intros theta phi. exact (sphere_radius _ _ _ _ _ theta phi Hs).
Qed.

(** C3.  With [d = x - center()] and [r = |d|], [point_is_contained(x)] is
    true exactly when [r = 0] or
    [r <= radius(acos(d_z / r), atan2(d_y, d_x))].  For a surface whose radius
    is the constant [R0 >= 0] at every angle, and so for the surface the
    sphere constructor builds from the radius [R0] at the center [c], this is
    [|x - c| <= R0]. *)
Theorem point_is_contained_spec (s : Surface) (x : array3 R) :
  let d := sub3 x (center s) in
  let r := norm3 d in
  (point_is_contained s x = true <->
     r = 0 \/ r <= radius s (acos (snd d / r)) (atan2 (snd (fst d)) (fst (fst d)))) /\
  (forall R0 : R,
     0 <= R0 -> (forall theta phi, radius s theta phi = R0) ->
     (point_is_contained s x = true <-> r <= R0)) /\
  (forall (L M : nat) (R0 : R) (c : array3 R),
     0 <= R0 -> Strahlkorper_sphere L M R0 c = Ok s ->
     (point_is_contained s x = true <-> norm3 (sub3 x c) <= R0)).
Proof.
  simpl. split; [apply point_is_contained_unfold|]. split.
  - intros R0. apply point_is_contained_constant_radius.
  - intros L M R0 c. apply sphere_contains.
Qed.

(** *** Prolongation and restriction *)

Lemma resample_fields (L M : nat) (s : Surface) :
  l_max (Strahlkorper_resample L M s) = L /\
  m_max (Strahlkorper_resample L M s) = M /\
  center (Strahlkorper_resample L M s) = center s /\
  ylm_spherepack (Strahlkorper_resample L M s) = mkYlm L M /\
  length (coefficients (Strahlkorper_resample L M s)) = physical_size_of L M.
Proof.
  unfold Strahlkorper_resample, coefficients, l_max, m_max, center,
    ylm_spherepack, physical_size_of; simpl.
  rewrite length_map. repeat split.
Qed.

(** The coefficient the resampled surface holds for [(l,m)]. *)
Lemma coef_resample (L M : nat) (s : Surface) (l : nat) (m : Z) :
  coef (Strahlkorper_resample L M s) l m =
  if stored_lmb L M (l, m) then coef s l m else 0.
Proof.
  pose proof (coef_of_map (Strahlkorper_resample L M s)
                (fun a => if stored_lmb (l_max s) (m_max s) a
                          then coef s (fst a) (snd a) else 0)
                (l, m) eq_refl) as H.
  simpl in H. rewrite H.
  destruct (stored_lmb L M (l, m)); [|reflexivity].
  destruct (stored_lmb (l_max s) (m_max s) (l, m)) eqn:Hold; [reflexivity|].
  symmetry. apply coef_not_stored. intros Hst.
  apply stored_lmb_spec in Hst. congruence.
Qed.

Lemma coef_prolong (L M : nat) (s : Surface) (l : nat) (m : Z) :
  (l_max s <= L)%nat -> (m_max s <= M)%nat ->
  coef (Strahlkorper_resample L M s) l m = coef s l m.
Proof.
  intros HL HM. rewrite coef_resample.
  destruct (stored_lmb L M (l, m)) eqn:Hnew; [reflexivity|].
  symmetry. apply coef_not_stored. intros Hst.
  apply (stored_lm_mono _ _ L M _ HL HM), stored_lmb_spec in Hst. congruence.
Qed.

Lemma term_outside_vanishes (s : Surface) (a : lm) (theta phi : R) :
  stored_lmb (l_max s) (m_max s) a = false ->
  Re (Cmul (expansion_coefficient (coef s) (fst a) (snd a))
           (Y (fst a) (snd a) theta phi)) = 0.
Proof.
  intros Hout. destruct a as [l m]; simpl.
  assert (Hn : ~ stored_lm (l_max s) (m_max s) (l, m)).
  { intros H. apply stored_lmb_spec in H. congruence. }
  rewrite expansion_coefficient_zero.
  - unfold Cmul, Re, Im; simpl. ring.
  - now apply coef_not_stored.
  - apply coef_not_stored. intros H. apply Hn. now apply stored_lm_opp.
Qed.

Lemma radius_prolong (L M : nat) (s : Surface) (theta phi : R) :
  (l_max s <= L)%nat -> (m_max s <= M)%nat ->
  radius (Strahlkorper_resample L M s) theta phi = radius s theta phi.
Proof.
  intros HL HM. unfold radius.
  destruct (resample_fields L M s) as (-> & -> & _).
  set (g := fun a : lm =>
              Re (Cmul (expansion_coefficient (coef s) (fst a) (snd a))
                       (Y (fst a) (snd a) theta phi))).
  transitivity (Rsum (fun a => if stored_lmb (l_max s) (m_max s) a then g a else 0)
                     (slots E L M)).
  - apply Rsum_ext. intros a _.
    destruct (stored_lmb (l_max s) (m_max s) a) eqn:Hold.
    + unfold g. f_equal. f_equal.
      apply expansion_coefficient_ext; now apply coef_prolong.
    + rewrite <- (term_outside_vanishes s a theta phi Hold). f_equal. f_equal.
      apply expansion_coefficient_ext; now apply coef_prolong.
  - rewrite Rsum_filter. apply Rsum_Permutation.
    apply NoDup_Permutation.
    + apply NoDup_filter, slots_NoDup.
    + apply slots_NoDup.
    + intros a. rewrite filter_In, stored_lmb_spec. split.
      * intros [_ H]. now apply stored_in_slots.
      * intros H. apply slots_are_stored in H. split; [|exact H].
        apply stored_in_slots. now apply (stored_lm_mono _ _ L M _ HL HM).
Qed.

Lemma restrict_after_prolong (L M : nat) (s : Surface) :
  length_invariant physical_size_of s ->
  (l_max s <= L)%nat -> (m_max s <= M)%nat ->
  coefficients (Strahlkorper_resample (l_max s) (m_max s) (Strahlkorper_resample L M s))
  = coefficients s.
Proof.
  intros Hlen HL HM.
  unfold Strahlkorper_resample at 1. unfold coefficients at 1; simpl.
  etransitivity;
    [| apply (map_lookup lm lm_eqb lm_eqb_spec 0 (slots E (l_max s) (m_max s)));
       [apply slots_NoDup | exact Hlen]].
  apply map_ext_in. intros a Ha.
  apply slots_are_stored in Ha.
  pose proof (stored_lm_mono _ _ L M _ HL HM Ha) as Hnew.
  apply stored_lmb_spec in Hnew. rewrite Hnew.
  rewrite coef_prolong by assumption.
  unfold coef. now rewrite <- surjective_pairing.
Qed.

(** C4.  For a surface [s] of the required length and a resolution
    [(L, M)] with [L >= s.l_max()] and [M >= s.m_max()], resampling [s] to
    [(L, M)] and the result back to the resolution of [s] returns the
    coefficient vector of [s]; the prolonged surface has the same radius as
    [s] at every angle; each resampling copies the center. *)
Theorem prolong_then_restrict (L M : nat) (s : Surface) :
  length_invariant physical_size_of s ->
  (l_max s <= L)%nat -> (m_max s <= M)%nat ->
  let p := Strahlkorper_resample L M s in
  let q := Strahlkorper_resample (l_max s) (m_max s) p in
  coefficients q = coefficients s /\
  l_max q = l_max s /\ m_max q = m_max s /\
  center p = center s /\ center q = center s /\
  l_max p = L /\ m_max p = M /\
  length_invariant physical_size_of p /\
  (forall theta phi, radius p theta phi = radius s theta phi).
Proof.
  intros Hlen HL HM. simpl.
  split; [now apply restrict_after_prolong|].
  repeat split.
  - unfold length_invariant.
    now destruct (resample_fields L M s) as (-> & -> & _ & _ & ->).
  - intros theta phi. now apply radius_prolong.
Qed.

(** *** The length of the coefficient vector *)

Lemma sphere_length (L M : nat) (rad : R) (c : array3 R) (s : Surface) :
  Strahlkorper_sphere L M rad c = Ok s -> length_invariant physical_size_of s.
Proof.
  intros H. destruct (sphere_fields _ _ _ _ _ H) as (_ & _ & _ & _ & _ & Hc).
  unfold length_invariant. rewrite Hc. unfold monopole_only, physical_size_of.
  apply length_map.
Qed.

Lemma from_samples_length (L M : nat) (samples : list R) (c : array3 R) (s : Surface) :
  Strahlkorper_from_samples L M samples c = Ok s ->
  length_invariant physical_size_of s.
Proof.
  unfold Strahlkorper_from_samples.
  destruct (Nat.eqb_spec (length samples) (collocation_count E L M)) as [Hn|Hn];
    [|discriminate].
  intros [= <-]. unfold length_invariant, coefficients, l_max, m_max; simpl.
  now apply forward_transform_length.
Qed.

Lemma from_samples_rejects (L M : nat) (samples : list R) (c : array3 R) :
  length samples <> collocation_count E L M ->
  Strahlkorper_from_samples L M samples c = Err SampleCountMismatch.
Proof.
  intros Hn. unfold Strahlkorper_from_samples.
  destruct (Nat.eqb_spec (length samples) (collocation_count E L M));
    [contradiction | reflexivity].
Qed.

Lemma with_coefs_length (coefs : list R) (another s : Surface) :
  Strahlkorper_with_coefs coefs another = Ok s ->
  length_invariant physical_size_of s /\ coefficients s = coefs /\
  l_max s = l_max another /\ m_max s = m_max another /\ center s = center another.
Proof.
  unfold Strahlkorper_with_coefs.
  destruct (Nat.eqb_spec (length coefs) (physical_size_of (l_max another) (m_max another)))
    as [Hn|Hn]; [|discriminate].
  intros [= <-]. unfold length_invariant, coefficients, l_max, m_max; simpl.
  repeat split. exact Hn.
Qed.

Lemma with_coefs_rejects (coefs : list R) (another : Surface) :
  length coefs <> physical_size_of (l_max another) (m_max another) ->
  Strahlkorper_with_coefs coefs another = Err SizeMismatch.
Proof.
  intros Hn. unfold Strahlkorper_with_coefs.
  destruct (Nat.eqb_spec (length coefs) (physical_size_of (l_max another) (m_max another)));
    [contradiction | reflexivity].
Qed.

(** C8 (as amended).  Every construction mode, the default constructor
    included, yields a vector of length [physical_size(l_max, m_max)]; a
    call keeps that length unless it changes the length of the vector
    through the reference the non-const [coefficients()] returns, or puts
    members of another resolution or length in place; storing single
    elements through that reference keeps it. *)
Theorem length_invariant_established_and_kept :
  length_invariant physical_size_of (Strahlkorper_default R 0 physical_size_of) /\
  (forall L M rad c s,
     Strahlkorper_sphere L M rad c = Ok s -> length_invariant physical_size_of s) /\
  (forall L M samples c s,
     Strahlkorper_from_samples L M samples c = Ok s ->
     length_invariant physical_size_of s) /\
  (forall L M another,
     length_invariant physical_size_of (Strahlkorper_resample L M another)) /\
  (forall coefs another s,
     Strahlkorper_with_coefs coefs another = Ok s \/
     Strahlkorper_with_coefs_move coefs another = Ok s ->
     length_invariant physical_size_of s) /\
  (forall (op : Operation R) (s : Surface),
     length_invariant physical_size_of s -> keeps_length R op s ->
     length_invariant physical_size_of (after op s)) /\
  (forall (s : Surface) (i : nat) (x : R),
     length_invariant physical_size_of s ->
     length_invariant physical_size_of (coefficients_mut s (store i x))).
Proof.
  split; [exact (proj1 (proj2 (proj2 (proj2 (proj2 (proj2 (proj2
            (Strahlkorper_default_fields R 0 physical_size_of))))))))|].
  split; [intros L M rad c s; apply sphere_length|].
  split; [intros L M samples c s; apply from_samples_length|].
  split.
  { intros L M another. unfold length_invariant.
    now destruct (resample_fields L M another) as (-> & -> & _ & _ & ->). }
  split.
  { intros coefs another s [H|H]; exact (proj1 (with_coefs_length _ _ _ H)). }
  split.
  { intros op s Hlen Hkeep. now apply after_keeps_length_invariant. }
  intros s i x Hlen.
  apply (after_keeps_length_invariant R physical_size_of
           (CallCoefficients (store i x)) s); [|exact Hlen].
  apply store_keeps_length.
Qed.

(** *** The default-constructed surface *)

(** C10.  The default-constructed object has [l_max = 2], [m_max = 2], the
    center [(0, 0, 0)] and a vector of length [physical_size(2, 2)] whose
    entries are all [0.0]; it satisfies the invariants, and its average
    radius is zero. *)
Theorem default_constructed_surface :
  let s := Strahlkorper_default R 0 physical_size_of in
  l_max s = 2%nat /\ m_max s = 2%nat /\ center s = (0, 0, 0) /\
  length (coefficients s) = physical_size_of 2 2 /\
  coefficients s = repeat 0 (physical_size_of 2 2) /\
  (forall i, nth i (coefficients s) 0 = 0) /\
  well_formed physical_size_of s /\
  average_radius s = 0.
Proof.
  destruct (Strahlkorper_default_fields R 0 physical_size_of)
    as (Hl & Hm & Hc & Hcoefs & Hlen & Hnth & Hwf).
  simpl. repeat split; try assumption; try apply Hwf.
  unfold average_radius, coef, lookup.
  destruct (position _ _ _); [rewrite Hnth|]; unfold Rdiv; ring.
Qed.

End WithEngine.

End Spectral.

(** ** One engine

    A concrete indexing convention: degree by degree, and within a degree
    the orders from the lowest to the highest.  It is one inhabitant of
    [Engine], at which the results above are instantiated. *)

Module Canonical.

Import Header Listing Spectral.
Open Scope R_scope.

(** The orders retained for degree [l]: [-min l M, ..., min l M]. *)
Definition orders (M : nat) (l : nat) : list lm :=
  map (fun k => (l, (Z.of_nat k - Z.of_nat (Nat.min l M))%Z))
      (seq 0 (2 * Nat.min l M + 1)).

Definition canonical_slots (L M : nat) : list lm :=
  flat_map (orders M) (seq 0 (S L)).

Lemma In_orders (M l : nat) (a : lm) :
  In a (orders M l) <->
  fst a = l /\ (Z.abs (snd a) <= Z.of_nat (Nat.min l M))%Z.
Proof.
  unfold orders. rewrite in_map_iff. split.
  - intros (k & <- & Hk). apply in_seq in Hk. simpl. split; [reflexivity | lia].
  - intros [Hl Hm]. destruct a as [l' m]; simpl in *. subst l'.
    exists (Z.to_nat (m + Z.of_nat (Nat.min l M))). split.
    + f_equal. lia.
    + apply in_seq. lia.
Qed.

Lemma NoDup_orders (M l : nat) : NoDup (orders M l).
Proof.
  unfold orders. apply NoDup_map_NoDup_ForallPairs; [|apply seq_NoDup].
  intros j k _ _ H. injection H as H. lia.
Qed.

Lemma NoDup_flat_map_tagged {A B : Type} (f : A -> list B) (tag : B -> A) (ls : list A) :
  NoDup ls -> (forall x, NoDup (f x)) -> (forall x y, In y (f x) -> tag y = x) ->
  NoDup (flat_map f ls).
Proof.
  intros Hnd Hf Htag. induction Hnd as [|x ls Hx Hnd IH]; simpl; [constructor|].
  apply NoDup_app; [apply Hf | exact IH |].
  intros y Hy Hy'. apply in_flat_map in Hy' as (x' & Hx' & Hy').
  apply Htag in Hy, Hy'. apply Hx. congruence.
Qed.

Lemma canonical_slots_NoDup (L M : nat) : NoDup (canonical_slots L M).
Proof.
  unfold canonical_slots.
  apply (NoDup_flat_map_tagged (orders M) fst); [apply seq_NoDup | apply NoDup_orders |].
  intros l a Ha. now apply In_orders in Ha.
Qed.

Lemma canonical_slots_stored (L M : nat) (a : lm) :
  In a (canonical_slots L M) <-> stored_lm L M a.
Proof.
  unfold canonical_slots, stored_lm. rewrite in_flat_map. split.
  - intros (l & Hl & Ha). apply in_seq in Hl. apply In_orders in Ha as [<- Hm].
    split; [lia | exact Hm].
  - intros [Hl Hm]. exists (fst a). split; [apply in_seq; lia|].
    apply In_orders. now split.
Qed.

(** The engine: the slots above, no harmonic beyond the monopole, one
    collocation point per slot and the forward transform that takes the
    samples as the coefficients. *)
Definition engine : Engine :=
  mkEngine canonical_slots canonical_slots_NoDup canonical_slots_stored
           (fun _ _ _ _ => (0, 0))
           (fun L M => length (canonical_slots L M))
           (fun _ _ samples => samples)
           (fun _ _ _ H => H).

Lemma canonical_slots_2_2 :
  canonical_slots 2 2 =
  [(0%nat, 0%Z);
   (1%nat, (-1)%Z); (1%nat, 0%Z); (1%nat, 1%Z);
   (2%nat, (-2)%Z); (2%nat, (-1)%Z); (2%nat, 0%Z); (2%nat, 1%Z); (2%nat, 2%Z)].
Proof. reflexivity. Qed.

Lemma physical_size_2_2 : physical_size_of engine 2 2 = 9%nat.
Proof. reflexivity. Qed.

(** *** Surfaces of resolution [(2, 2)] *)

Definition origin : array3 R := (0, 0, 0).

(** What the sphere constructor builds for the radius [rad] at the origin. *)
Definition sphere_2_2 (rad : R) : Surface :=
  {| l_max_ := 2; m_max_ := 2; ylm_ := mkYlm 2 2; center_ := origin;
     strahlkorper_coefs_ := monopole_only engine 2 2 (rad * sqrt 8) |}.

(** A surface with nine distinct coefficients. *)
Definition bumpy : Surface :=
  {| l_max_ := 2; m_max_ := 2; ylm_ := mkYlm 2 2; center_ := (1, 2, 3);
     strahlkorper_coefs_ := [9; 1; 2; 3; 4; 5; 6; 7; 8] |}.

Definition default_surface : Surface :=
  Strahlkorper_default R 0 (physical_size_of engine).

Lemma sphere_2_2_built (rad : R) :
  Strahlkorper_sphere engine 2 2 rad origin = Ok (sphere_2_2 rad).
Proof. apply sphere_accepts. lia. Qed.

Lemma bumpy_length : length_invariant (physical_size_of engine) bumpy.
Proof. reflexivity. Qed.

Lemma norm3_on_axis (a : R) : 0 <= a -> norm3 (sub3 (a, 0, 0) origin) = a.
Proof.
  intros Ha. unfold norm3, sub3, origin; simpl.
  replace ((a - 0) * (a - 0) + (0 - 0) * (0 - 0) + (0 - 0) * (0 - 0)) with (a * a) by ring.
  now apply sqrt_square.
Qed.

Lemma norm3_on_diagonal (a : R) : 0 <= a -> norm3 (sub3 (a, a, a) origin) = a * sqrt 3.
Proof.
  intros Ha. unfold norm3, sub3, origin; simpl.
  replace ((a - 0) * (a - 0) + (a - 0) * (a - 0) + (a - 0) * (a - 0))
    with ((a * a) * 3) by ring.
  rewrite sqrt_mult by nra. now rewrite sqrt_square.
Qed.

(** The surface of resolution [(2, 2)] at the origin whose vector is as the
    claim words it: zero except for [rad * sqrt(4 pi)] in the monopole
    slot. *)
Definition monopole_4pi (rad : R) : Surface :=
  {| l_max_ := 2; m_max_ := 2; ylm_ := mkYlm 2 2; center_ := origin;
     strahlkorper_coefs_ := monopole_only engine 2 2 (rad * sqrt_4pi) |}.

Lemma monopole_4pi_radius (rad theta phi : R) :
  radius engine (monopole_4pi rad) theta phi = rad * sqrt_pi_over_2.
Proof.
  rewrite (monopole_only_evaluates engine (monopole_4pi rad) (rad * sqrt_4pi))
    by reflexivity.
  rewrite <- sqrt_4pi_over_sqrt_8. unfold Rdiv. ring.
Qed.

(** *** The claims at these surfaces *)




(** C3 at the sphere built from the radius 5 and a point on its boundary. *)
Lemma point_is_contained_spec_witness :
  0 <= 5 /\
  Strahlkorper_sphere engine 2 2 5 origin = Ok (sphere_2_2 5) /\
  (point_is_contained engine (sphere_2_2 5) (5, 0, 0) = true <->
   norm3 (sub3 (5, 0, 0) origin) <= 5).
Proof.
  assert (H5 : 0 <= 5) by lra.
  split; [exact H5|]. split; [exact (sphere_2_2_built 5)|].
  exact (proj2 (proj2 (point_is_contained_spec engine (sphere_2_2 5) (5, 0, 0)))
           2%nat 2%nat 5 origin H5 (sphere_2_2_built 5)).
Defined.

(** The sphere of radius 5 contains the point [(5, 0, 0)] on its boundary
    and not the point [(6, 0, 0)]. *)
Lemma sphere_of_radius_5 :
  point_is_contained engine (sphere_2_2 5) (5, 0, 0) = true /\
  point_is_contained engine (sphere_2_2 5) (6, 0, 0) = false.
Proof.
  split.
  - apply (sphere_contains engine 2 2 5 origin); [lra | exact (sphere_2_2_built 5) |].
    rewrite norm3_on_axis by lra. lra.
  - destruct (point_is_contained engine (sphere_2_2 5) (6, 0, 0)) eqn:Hin;
      [|reflexivity].
    apply (sphere_contains engine 2 2 5 origin) in Hin;
      [| lra | exact (sphere_2_2_built 5)].
    rewrite norm3_on_axis in Hin by lra. lra.
Qed.

(** The scenario of the spec: the sphere of radius 2 at the origin contains
    [(1, 1, 1)] and does not contain [(2, 2, 2)]. *)
Lemma scenario_radius_two :
  (forall theta phi, radius engine (sphere_2_2 2) theta phi = 2) /\
  point_is_contained engine (sphere_2_2 2) (1, 1, 1) = true /\
  point_is_contained engine (sphere_2_2 2) (2, 2, 2) = false.
Proof.
  pose proof (sphere_2_2_built 2) as Hs.
  assert (H3 : sqrt 3 <= 2).
  { rewrite <- (sqrt_square 2) by lra. apply sqrt_le_1_alt. lra. }
  assert (H3' : 1 < sqrt 3).
  { rewrite <- sqrt_1 at 1. apply sqrt_lt_1_alt. lra. }
  split; [intros theta phi; exact (sphere_radius engine _ _ _ _ _ theta phi Hs)|].
  split.
  - apply (sphere_contains engine 2 2 2 origin); [lra | exact Hs |].
    rewrite norm3_on_diagonal by lra. lra.
  - destruct (point_is_contained engine (sphere_2_2 2) (2, 2, 2)) eqn:Hin;
      [|reflexivity].
    apply (sphere_contains engine 2 2 2 origin) in Hin; [| lra | exact Hs].
    rewrite norm3_on_diagonal in Hin by lra. lra.
Qed.

(** C4 at the surface with nine distinct coefficients, prolonged to the
    resolution [(3, 3)]. *)
Lemma prolong_then_restrict_witness :
  length_invariant (physical_size_of engine) bumpy /\
  (l_max bumpy <= 3)%nat /\ (m_max bumpy <= 3)%nat /\
  coefficients
    (Strahlkorper_resample engine (l_max bumpy) (m_max bumpy)
       (Strahlkorper_resample engine 3 3 bumpy)) = coefficients bumpy.
Proof.
  assert (H23 : (2 <= 3)%nat) by lia.
  split; [exact bumpy_length|]. split; [exact H23|]. split; [exact H23|].
  exact (proj1 (prolong_then_restrict engine 3 3 bumpy bumpy_length H23 H23)).
Defined.

(** C7 at [l_max = 1], [m_max = 2]. *)
Lemma sphere_rejects_invalid_resolution_witness :
  (1 < 2)%nat /\ Strahlkorper_sphere engine 1 2 1 origin = Err InvalidResolution.
Proof.
  assert (H12 : (1 < 2)%nat) by lia.
  split; [exact H12|].
  exact (proj1 (sphere_rejects_invalid_resolution engine 1 2 1 origin H12)).
Defined.

(** The amended C8 at a store into the first slot. *)
Lemma length_invariant_established_and_kept_witness :
  length_invariant (physical_size_of engine) bumpy /\
  keeps_length R (CallCoefficients (store 0 7)) bumpy /\
  length_invariant (physical_size_of engine) (after (CallCoefficients (store 0 7)) bumpy).
Proof.
  assert (Hkeep : keeps_length R (CallCoefficients (store 0 7)) bumpy) by reflexivity.
  split; [exact bumpy_length|]. split; [exact Hkeep|].
  exact (proj1 (proj2 (proj2 (proj2 (proj2 (proj2
           (length_invariant_established_and_kept engine))))))
           (CallCoefficients (store 0 7)) bumpy bumpy_length Hkeep).
Defined.

(** C8, the claim as stated fails: assigning a vector of another length
    through the reference that [coefficients()] returns leaves an object
    whose vector has not the length [physical_size(l_max, m_max)]. *)
Lemma assignment_breaks_length_invariant :
  length_invariant (physical_size_of engine) default_surface /\
  ~ length_invariant (physical_size_of engine)
      (after (CallCoefficients (assign [1; 2])) default_surface).
Proof.
  split; [reflexivity|].
  unfold length_invariant; simpl. discriminate.
Qed.

End Canonical.

(** ** What [operator==] identifies

    The comparison of the header as a relation on surfaces: for any scalar
    comparison first, then for the comparison of binary64 floats. *)

Module Equality.

Import Header.

Section Laws.

Variable D : Type.
Variable deq : D -> D -> bool.

(** Corresponding scalars of two objects: the components of the centers and
    the entries of the coefficient vectors, which must have one length. *)
Definition scalarwise (P : D -> D -> Prop) (lhs rhs : Strahlkorper D) : Prop :=
  P (fst (fst (center lhs))) (fst (fst (center rhs))) /\
  P (snd (fst (center lhs))) (snd (fst (center rhs))) /\
  P (snd (center lhs)) (snd (center rhs)) /\
  Forall2 P (coefficients lhs) (coefficients rhs).

Lemma DataVector_eq_Forall2 (a b : DataVector D) :
  DataVector_eq D deq a b = true <-> Forall2 (fun x y => deq x y = true) a b.
Proof.
  revert b; induction a as [|x a IH]; intros [|y b]; simpl.
  - split; [constructor | reflexivity].
  - split; [discriminate | intros H; inversion H].
  - split; [discriminate | intros H; inversion H].
  - rewrite andb_true_iff, IH. split.
    + intros [Hxy Hab]. now constructor.
    + intros H. inversion H; subst. now split.
Qed.

Lemma operator_eq_scalarwise (lhs rhs : Strahlkorper D) :
  operator_eq D deq lhs rhs = true <->
  l_max lhs = l_max rhs /\ m_max lhs = m_max rhs /\
  scalarwise (fun x y => deq x y = true) lhs rhs.
Proof.
  unfold operator_eq, scalarwise.
  rewrite !andb_true_iff, !Nat.eqb_eq, array3_eq_true, DataVector_eq_Forall2. tauto.
Qed.

Lemma Forall2_iff (P Q : D -> D -> Prop) (a b : list D) :
  (forall x y, P x y <-> Q x y) -> (Forall2 P a b <-> Forall2 Q a b).
Proof.
  intros H. split; intros HF; induction HF; constructor; auto; now apply H.
Qed.

Lemma Forall2_sym (P : D -> D -> Prop) (a b : list D) :
  (forall x y, P x y -> P y x) -> Forall2 P a b -> Forall2 P b a.
Proof. intros H HF. induction HF; constructor; auto. Qed.

Lemma Forall2_trans (P : D -> D -> Prop) (a b c : list D) :
  (forall x y z, P x y -> P y z -> P x z) ->
  Forall2 P a b -> Forall2 P b c -> Forall2 P a c.
Proof.
  intros H HF. revert c. induction HF as [|x y a b Hxy Hab IH]; intros c Hbc.
  - inversion Hbc. constructor.
  - inversion Hbc; subst. constructor; [eapply H; eauto | now apply IH].
Qed.

Lemma Forall2_diag (P : D -> D -> Prop) (a : list D) :
  Forall2 P a a <-> Forall (fun x => P x x) a.
Proof.
  induction a as [|x a IH].
  - split; constructor.
  - split; intros H; inversion H; subst; constructor; auto; now apply IH.
Qed.

(** A symmetric scalar comparison makes [==] symmetric, a transitive one
    transitive; [s == s] holds exactly when every scalar of [s] compares
    equal to itself. *)
Lemma operator_eq_sym_of (lhs rhs : Strahlkorper D) :
  (forall x y, deq x y = true -> deq y x = true) ->
  operator_eq D deq lhs rhs = true -> operator_eq D deq rhs lhs = true.
Proof.
  intros Hsym. rewrite !operator_eq_scalarwise. unfold scalarwise.
  intros (Hl & Hm & H0 & H1 & H2 & Hc).
  repeat split; auto using eq_sym. now apply Forall2_sym.
Qed.

Lemma operator_eq_trans_of (a b c : Strahlkorper D) :
  (forall x y z, deq x y = true -> deq y z = true -> deq x z = true) ->
  operator_eq D deq a b = true -> operator_eq D deq b c = true ->
  operator_eq D deq a c = true.
Proof.
  intros Htr. rewrite !operator_eq_scalarwise. unfold scalarwise.
  intros (Hl & Hm & H0 & H1 & H2 & Hc) (Hl' & Hm' & H0' & H1' & H2' & Hc').
  repeat split; try congruence; try (eapply Htr; eassumption).
  eapply Forall2_trans; [|eassumption|eassumption].
  intros x y z. apply Htr.
Qed.

Lemma operator_eq_refl_of (s : Strahlkorper D) :
  operator_eq D deq s s = true <-> Forall (fun x => deq x x = true) (scalars s).
Proof.
  rewrite operator_eq_scalarwise. unfold scalarwise, scalars.
  rewrite Forall2_diag. destruct (center s) as [[c0 c1] c2]; simpl. split.
  - intros (_ & _ & H0 & H1 & H2 & Hc). repeat constructor; assumption.
  - intros H. inversion H as [|? ? H0 H']; subst.
    inversion H' as [|? ? H1 H'']; subst. inversion H'' as [|? ? H2 Hc]; subst.
    repeat split; assumption.
Qed.

End Laws.

Arguments scalarwise {D} P lhs rhs.

End Equality.

(** ** [operator==] over binary64 floats *)

Module FloatEquality.

Import Header IEEE Equality.

(** The two zeros. *)
Definition is_a_zero (x : double) : Prop :=
  x = PrimFloat.zero \/ x = PrimFloat.neg_zero.

(** What [==] on [double] identifies: a value that is not a NaN with
    itself, and the two zeros with each other. *)
Definition same_number (x y : double) : Prop :=
  (x = y /\ x <> PrimFloat.nan) \/ (is_a_zero x /\ is_a_zero y).

Lemma of_spec_float (x : double) (sx : SpecFloat.spec_float) :
  FloatOps.Prim2SF x = sx -> x = FloatOps.SF2Prim sx.
Proof. intros <-. symmetry. apply FloatAxioms.SF2Prim_Prim2SF. Qed.

Lemma SFeqb_refl (sx : SpecFloat.spec_float) :
  sx <> SpecFloat.S754_nan -> SpecFloat.SFeqb sx sx = true.
Proof.
  unfold SpecFloat.SFeqb. destruct sx as [s|s| |s m e]; simpl.
  - reflexivity.
  - now destruct s.
  - contradiction.
  - intros _. rewrite Z.compare_refl.
    change (PosDef.Pos.compare_cont Eq m m) with (Pos.compare m m).
    rewrite Pos.compare_refl. now destruct s.
Qed.

Lemma SFeqb_zero_l (s : bool) (sy : SpecFloat.spec_float) :
  SpecFloat.SFeqb (SpecFloat.S754_zero s) sy = true -> exists s', sy = SpecFloat.S754_zero s'.
Proof.
  unfold SpecFloat.SFeqb. destruct sy as [s'|s'| |s' m e]; simpl.
  - intros _. now exists s'.
  - destruct s'; discriminate.
  - discriminate.
  - destruct s'; discriminate.
Qed.

Lemma double_eq_same_number (x y : double) :
  double_eq x y = true <-> same_number x y.
Proof.
  unfold double_eq, same_number. rewrite FloatAxioms.eqb_spec. split.
  - intros Heq. destruct (FloatOps.Prim2SF x) as [s|s| |s m e] eqn:Hx.
    + right. destruct (SFeqb_zero_l _ _ Heq) as [s' Hy].
      apply of_spec_float in Hx, Hy. unfold is_a_zero.
      split; [destruct s | destruct s']; simpl in *; auto.
    + left. apply SFeqb_infinity_eq in Heq. split.
      * apply FloatAxioms.Prim2SF_inj. congruence.
      * intros ->. vm_compute in Hx. discriminate.
    + discriminate.
    + left. apply SFeqb_finite_eq in Heq. split.
      * apply FloatAxioms.Prim2SF_inj. congruence.
      * intros ->. vm_compute in Hx. discriminate.
  - intros [[<- Hnan] | [Hx Hy]].
    + apply SFeqb_refl. intros Hsx. apply Hnan.
      apply of_spec_float in Hsx. exact Hsx.
    + destruct Hx as [-> | ->], Hy as [-> | ->]; vm_compute; reflexivity.
Qed.

Lemma same_number_sym (x y : double) : same_number x y -> same_number y x.
Proof.
  unfold same_number. intros [[<- H] | [Hx Hy]]; [left | right]; auto.
Qed.

Lemma zero_is_not_nan (x : double) : is_a_zero x -> x <> PrimFloat.nan.
Proof.
  intros [-> | ->] H;
    apply (f_equal PrimFloat.classify) in H; vm_compute in H; discriminate.
Qed.

Lemma same_number_trans (x y z : double) :
  same_number x y -> same_number y z -> same_number x z.
Proof.
  unfold same_number.
  intros [[<- Hx] | [Hx Hy]] [[<- Hy'] | [Hy' Hz]]; auto.
Qed.

Lemma same_number_refl (x : double) : same_number x x <-> x <> PrimFloat.nan.
Proof.
  unfold same_number. split.
  - intros [[_ H] | [H _]]; [exact H | now apply zero_is_not_nan].
  - intros H. left. now split.
Qed.

Lemma double_eq_self_false (x : double) :
  double_eq x x = false <-> x = PrimFloat.nan.
Proof.
  split.
  - intros H. destruct (FloatOps.Prim2SF x) as [sg|sg| |sg m e] eqn:Hx.
    + assert (K : double_eq x x = true).
      { unfold double_eq. rewrite FloatAxioms.eqb_spec, Hx. now apply SFeqb_refl. }
      congruence.
    + assert (K : double_eq x x = true).
      { unfold double_eq. rewrite FloatAxioms.eqb_spec, Hx. now apply SFeqb_refl. }
      congruence.
    + now apply of_spec_float in Hx.
    + assert (K : double_eq x x = true).
      { unfold double_eq. rewrite FloatAxioms.eqb_spec, Hx. now apply SFeqb_refl. }
      congruence.
  - intros ->. vm_compute. reflexivity.
Qed.

Lemma scalarwise_same_number (lhs rhs : Surface) :
  scalarwise (fun x y => double_eq x y = true) lhs rhs <->
  scalarwise same_number lhs rhs.
Proof.
  unfold scalarwise. rewrite !double_eq_same_number.
  rewrite (Forall2_iff double _ same_number _ _ double_eq_same_number). tauto.
Qed.

Lemma double_eq_sym (x y : double) : double_eq x y = true -> double_eq y x = true.
Proof. rewrite !double_eq_same_number. apply same_number_sym. Qed.

Lemma double_eq_trans (x y z : double) :
  double_eq x y = true -> double_eq y z = true -> double_eq x z = true.
Proof. rewrite !double_eq_same_number. apply same_number_trans. Qed.

(** [lhs == rhs] holds exactly when the resolutions are equal, the
    coefficient vectors have one length, and every scalar of [lhs] and the
    corresponding scalar of [rhs] are either one value that is not a NaN or
    two zeros. *)
Theorem operator_eq_identifies (lhs rhs : Surface) :
  operator_eq double double_eq lhs rhs = true <->
  l_max lhs = l_max rhs /\ m_max lhs = m_max rhs /\
  scalarwise same_number lhs rhs.
Proof. now rewrite operator_eq_scalarwise, scalarwise_same_number. Qed.

(** [==] does not depend on the order of its operands, and neither does
    [!=]. *)
Theorem operator_eq_symmetric (lhs rhs : Surface) :
  operator_eq double double_eq lhs rhs = operator_eq double double_eq rhs lhs /\
  operator_ne double double_eq lhs rhs = operator_ne double double_eq rhs lhs.
Proof.
  assert (H : operator_eq double double_eq lhs rhs =
              operator_eq double double_eq rhs lhs).
  { destruct (operator_eq double double_eq lhs rhs) eqn:E1,
             (operator_eq double double_eq rhs lhs) eqn:E2; try reflexivity.
    - apply (operator_eq_sym_of double double_eq _ _ double_eq_sym) in E1. congruence.
    - apply (operator_eq_sym_of double double_eq _ _ double_eq_sym) in E2. congruence. }
  split; [exact H | unfold operator_ne; now rewrite H].
Qed.

(** [==] is transitive. *)
Theorem operator_eq_transitive (a b c : Surface) :
  operator_eq double double_eq a b = true ->
  operator_eq double double_eq b c = true ->
  operator_eq double double_eq a c = true.
Proof. apply operator_eq_trans_of. exact double_eq_trans. Qed.

(** A surface is [==] to itself exactly when it stores no NaN, and [!=] to
    itself exactly when it stores one. *)
Theorem operator_eq_reflexive_iff_nan_free (s : Surface) :
  (operator_eq double double_eq s s = true <-> ~ In PrimFloat.nan (scalars s)) /\
  (operator_ne double double_eq s s = true <-> In PrimFloat.nan (scalars s)).
Proof.
  assert (Hrefl : operator_eq double double_eq s s = true <->
                  ~ In PrimFloat.nan (scalars s)).
  { rewrite operator_eq_refl_of, Forall_forall. split.
    - intros H Hin. specialize (H _ Hin). vm_compute in H. discriminate.
    - intros H x Hx. destruct (double_eq x x) eqn:E; [reflexivity|].
      apply double_eq_self_false in E. subst. contradiction. }
  split; [exact Hrefl|].
  unfold operator_ne. rewrite negb_true_iff. split.
  - intros Hne.
    assert (Hex : Exists (fun x => double_eq x x <> true) (scalars s)).
    { apply neg_Forall_Exists_neg.
      - intros x. destruct (double_eq x x); [left | right]; congruence.
      - intros HF. apply operator_eq_refl_of in HF. congruence. }
    apply Exists_exists in Hex as (x & Hx & Hxx).
    apply not_true_is_false, double_eq_self_false in Hxx. now subst.
  - intros Hin. apply not_true_is_false. intros E.
    apply Hrefl in E. contradiction.
Qed.

(** Two default-constructed surfaces compare equal, whatever
    [physical_size] is. *)
Theorem default_constructed_compare_equal (physical_size_of : nat -> nat -> nat) :
  operator_eq double double_eq
    (Strahlkorper_default double PrimFloat.zero physical_size_of)
    (Strahlkorper_default double PrimFloat.zero physical_size_of) = true /\
  operator_ne double double_eq
    (Strahlkorper_default double PrimFloat.zero physical_size_of)
    (Strahlkorper_default double PrimFloat.zero physical_size_of) = false.
Proof.
  assert (H : operator_eq double double_eq
                (Strahlkorper_default double PrimFloat.zero physical_size_of)
                (Strahlkorper_default double PrimFloat.zero physical_size_of) = true).
  { apply operator_eq_refl_of. unfold scalars; simpl.
    repeat (constructor; [vm_compute; reflexivity|]).
    apply Forall_forall. intros x Hx. apply repeat_spec in Hx. subst.
    vm_compute. reflexivity. }
  split; [exact H | unfold operator_ne; now rewrite H].
Qed.

(** Transitivity at three surfaces whose centers differ in the sign of a
    zero. *)
Lemma operator_eq_transitive_witness :
  operator_eq double double_eq (centered_at PrimFloat.zero)
    (centered_at PrimFloat.neg_zero) = true /\
  operator_eq double double_eq (centered_at PrimFloat.neg_zero)
    (centered_at PrimFloat.zero) = true /\
  operator_eq double double_eq (centered_at PrimFloat.zero)
    (centered_at PrimFloat.zero) = true.
Proof.
  assert (H1 : operator_eq double double_eq (centered_at PrimFloat.zero)
                 (centered_at PrimFloat.neg_zero) = true) by (vm_compute; reflexivity).
  assert (H2 : operator_eq double double_eq (centered_at PrimFloat.neg_zero)
                 (centered_at PrimFloat.zero) = true) by (vm_compute; reflexivity).
  split; [exact H1|]. split; [exact H2|].
  exact (operator_eq_transitive _ _ _ H1 H2).
Defined.

(** Copying the coefficients of [rhs] into [lhs] through the reference that
    [coefficients()] returns makes the two compare equal when resolutions and
    centers already do and the copied vector holds no NaN. *)
Theorem copied_coefficients_compare_equal (lhs rhs : Surface) :
  l_max lhs = l_max rhs -> m_max lhs = m_max rhs ->
  array3_eq double double_eq (center lhs) (center rhs) = true ->
  ~ In PrimFloat.nan (coefficients rhs) ->
  operator_eq double double_eq
    (coefficients_mut lhs (assign (coefficients rhs))) rhs = true.
Proof.
  intros Hl Hm Hc Hnan. unfold operator_eq.
  change (l_max (coefficients_mut lhs (assign (coefficients rhs)))) with (l_max lhs).
  change (m_max (coefficients_mut lhs (assign (coefficients rhs)))) with (m_max lhs).
  change (center (coefficients_mut lhs (assign (coefficients rhs)))) with (center lhs).
  change (coefficients (coefficients_mut lhs (assign (coefficients rhs))))
    with (coefficients rhs).
  rewrite Hl, Hm, !Nat.eqb_refl, Hc. simpl.
  apply DataVector_eq_Forall2, Forall2_diag, Forall_forall.
  intros x Hx. destruct (double_eq x x) eqn:E; [reflexivity|].
  apply double_eq_self_false in E. subst. contradiction.
Qed.

(** Copying into a surface whose first coefficient had been overwritten. *)
Lemma copied_coefficients_compare_equal_witness :
  operator_eq double double_eq
    (coefficients_mut (centered_at PrimFloat.one) (store 0 PrimFloat.two))
    (centered_at PrimFloat.one) = false /\
  ~ In PrimFloat.nan (coefficients (centered_at PrimFloat.one)) /\
  operator_eq double double_eq
    (coefficients_mut
       (coefficients_mut (centered_at PrimFloat.one) (store 0 PrimFloat.two))
       (assign (coefficients (centered_at PrimFloat.one))))
    (centered_at PrimFloat.one) = true.
Proof.
  assert (Hnan : ~ In PrimFloat.nan (coefficients (centered_at PrimFloat.one))).
  { simpl. intros [H|[H|[H|[]]]];
      apply (f_equal PrimFloat.classify) in H; vm_compute in H; discriminate. }
  split; [vm_compute; reflexivity|]. split; [exact Hnan|].
  exact (copied_coefficients_compare_equal
           (coefficients_mut (centered_at PrimFloat.one) (store 0 PrimFloat.two))
           (centered_at PrimFloat.one) eq_refl eq_refl eq_refl Hnan).
Defined.

End FloatEquality.

(** ** Sending CCE boundary data to the evolution component

    Shallow embedding of
    [src/Evolution/Systems/Cce/Actions/BoundaryComputeAndSendToEvolution.hpp].
    An action takes the items of the DataBox it mutates and returns either
    the items as it leaves them together with the messages it has sent, in
    order, or the message of the [ERROR] that ended the run.  The data
    managers, the interface manager and [create_bondi_boundary_data] are not
    among the sources; they are parameters. *)

Module Cce.

Import String Ascii.
Local Open Scope string_scope.

Section Actions.

Variable TimeStepId : Type.
Variable double : Type.

(** [TimeStepId::substep_time()], [std::to_string(double)], the text that
    [operator<<] gives a [double] in an [ERROR] message, and
    [SelfStart::is_self_starting]. *)
Variable substep_time : TimeStepId -> double.
Variable to_string : double -> string.
Variable streamed : double -> string.
Variable is_self_starting : TimeStepId -> bool.

(** The lock pointer fetched from the observer writer. *)
Variable Lock : Type.

(** [Variables<cce_boundary_communication_tags>] and
    [Variables<klein_gordon_boundary_communication_tags>]. *)
Variable BoundaryVariables : Type.
Variable KleinGordonVariables : Type.

(** The managers and their [populate_hypersurface_boundary_data]: it writes
    into the variables it is handed, may change the manager, and says
    whether it succeeded. *)
Variable WorldtubeDataManager : Type.
Variable KleinGordonDataManager : Type.
Variable AnalyticBoundaryDataManager : Type.
Variable populate_hypersurface_boundary_data :
  WorldtubeDataManager -> BoundaryVariables -> double -> Lock ->
  bool * WorldtubeDataManager * BoundaryVariables.
Variable klein_gordon_populate_hypersurface_boundary_data :
  KleinGordonDataManager -> KleinGordonVariables -> double -> Lock ->
  bool * KleinGordonDataManager * KleinGordonVariables.
Variable analytic_populate_hypersurface_boundary_data :
  AnalyticBoundaryDataManager -> BoundaryVariables -> double ->
  bool * AnalyticBoundaryDataManager * BoundaryVariables.

(** [InterfaceManagers::GhInterfaceManager]: [request_gh_data] and
    [retrieve_and_remove_first_ready_gh_data], whose result is empty or a
    time with the variables of the generalized harmonic system. *)
Variable GhInterfaceManager : Type.
Variable gh_variables : Type.
Variable request_gh_data : GhInterfaceManager -> TimeStepId -> GhInterfaceManager.
Variable retrieve_and_remove_first_ready_gh_data :
  GhInterfaceManager -> option (TimeStepId * gh_variables) * GhInterfaceManager.

(** The three tensors of [gh_variables] and [create_bondi_boundary_data]. *)
Variable SpacetimeMetric : Type.
Variable Phi : Type.
Variable Pi : Type.
Variable get_SpacetimeMetric : gh_variables -> SpacetimeMetric.
Variable get_Phi : gh_variables -> Phi.
Variable get_Pi : gh_variables -> Pi.
Variable double_of_size_t : nat -> double.
Variable create_bondi_boundary_data :
  BoundaryVariables -> Phi -> Pi -> SpacetimeMetric -> double -> double ->
  BoundaryVariables.

(** What an action sends: [Parallel::receive_data] of boundary data on the
    evolution component, with the flag [enable_if_disabled], and the simple
    action [SendToEvolution] on the boundary component. *)
Inductive Message : Type :=
| ReceiveBoundaryData (time : TimeStepId) (data : BoundaryVariables)
    (enable_if_disabled : bool)
| ReceiveKleinGordonBoundaryData (time : TimeStepId) (data : KleinGordonVariables)
    (enable_if_disabled : bool)
| InvokeSendToEvolution (time : TimeStepId) (data : gh_variables).

Inductive Outcome (Box : Type) : Type :=
| Finished (box : Box) (sent : list Message)
| Aborted (message : string).

Arguments Finished {Box} box sent.
Arguments Aborted {Box} message.

(** *** [H5WorldtubeBoundary] *)

Record H5Box : Type := mkH5Box {
  H5WorldtubeBoundaryDataManager : WorldtubeDataManager;
  h5_boundary_variables : BoundaryVariables
}.

Definition apply_H5WorldtubeBoundary (box : H5Box) (hdf5_lock : Lock)
  (time : TimeStepId) : Outcome H5Box :=
  let '(successfully_populated, manager, boundary_variables) :=
    populate_hypersurface_boundary_data
      (H5WorldtubeBoundaryDataManager box) (h5_boundary_variables box)
      (substep_time time) hdf5_lock in
  if negb successfully_populated
  then Aborted ("Insufficient boundary data to proceed, exiting early at time "
                ++ to_string (substep_time time))
  else Finished (mkH5Box manager boundary_variables)
                [ReceiveBoundaryData time boundary_variables true].

(** *** [KleinGordonH5WorldtubeBoundary] *)

Record KleinGordonBox : Type := mkKleinGordonBox {
  kg_H5WorldtubeBoundaryDataManager : WorldtubeDataManager;
  KleinGordonH5WorldtubeBoundaryDataManager : KleinGordonDataManager;
  tensor_boundary_variables : BoundaryVariables;
  klein_gordon_boundary_variables : KleinGordonVariables
}.

Definition apply_KleinGordonH5WorldtubeBoundary (box : KleinGordonBox)
  (hdf5_lock : Lock) (time : TimeStepId) : Outcome KleinGordonBox :=
  let '(tensor_successfully_populated, tensor_manager, tensor_variables) :=
    populate_hypersurface_boundary_data
      (kg_H5WorldtubeBoundaryDataManager box) (tensor_boundary_variables box)
      (substep_time time) hdf5_lock in
  let '(klein_gordon_successfully_populated, klein_gordon_manager,
        klein_gordon_variables) :=
    klein_gordon_populate_hypersurface_boundary_data
      (KleinGordonH5WorldtubeBoundaryDataManager box)
      (klein_gordon_boundary_variables box) (substep_time time) hdf5_lock in
  if negb tensor_successfully_populated
  then Aborted ("Insufficient tensor boundary data to proceed, exiting early at "
                ++ "time " ++ to_string (substep_time time))
  else if negb klein_gordon_successfully_populated
  then Aborted ("Insufficient scalar boundary data to proceed, exiting early at "
                ++ "time " ++ to_string (substep_time time))
  else Finished (mkKleinGordonBox tensor_manager klein_gordon_manager
                                  tensor_variables klein_gordon_variables)
                [ReceiveBoundaryData time tensor_variables true;
                 ReceiveKleinGordonBoundaryData time klein_gordon_variables true].

(** *** [AnalyticWorldtubeBoundary] *)

Record AnalyticBox : Type := mkAnalyticBox {
  AnalyticBoundaryDataManager_ : AnalyticBoundaryDataManager;
  analytic_boundary_variables : BoundaryVariables
}.

Definition apply_AnalyticWorldtubeBoundary (box : AnalyticBox) (time : TimeStepId)
  : Outcome AnalyticBox :=
  let '(successfully_populated, manager, boundary_variables) :=
    analytic_populate_hypersurface_boundary_data
      (AnalyticBoundaryDataManager_ box) (analytic_boundary_variables box)
      (substep_time time) in
  if negb successfully_populated
  then Aborted ("Insufficient boundary data to proceed, exiting early at time "
                ++ streamed (substep_time time))
  else Finished (mkAnalyticBox manager boundary_variables)
                [ReceiveBoundaryData time boundary_variables true].

(** *** [GhWorldtubeBoundary] *)

Record GhBox : Type := mkGhBox {
  SelfStartGhInterfaceManager : GhInterfaceManager;
  GhInterfaceManager_ : GhInterfaceManager;
  gh_boundary_variables : BoundaryVariables;
  ExtractionRadius : double;
  LMax : nat
}.

(** The lambda [retrieve_data_and_send_to_evolution]. *)
Definition retrieve_data_and_send_to_evolution (time : TimeStepId)
  (interface_manager : GhInterfaceManager) : GhInterfaceManager * list Message :=
  let requested := request_gh_data interface_manager time in
  let '(gh_data, retrieved) := retrieve_and_remove_first_ready_gh_data requested in
  match gh_data with
  | Some (data_time, data) => (retrieved, [InvokeSendToEvolution data_time data])
  | None => (retrieved, [])
  end.

Definition apply_GhWorldtubeBoundary (box : GhBox) (time : TimeStepId)
  : Outcome GhBox :=
  if is_self_starting time
  then let '(manager, sent) :=
         retrieve_data_and_send_to_evolution time (SelfStartGhInterfaceManager box) in
       Finished (mkGhBox manager (GhInterfaceManager_ box)
                         (gh_boundary_variables box) (ExtractionRadius box) (LMax box))
                sent
  else let '(manager, sent) :=
         retrieve_data_and_send_to_evolution time (GhInterfaceManager_ box) in
       Finished (mkGhBox (SelfStartGhInterfaceManager box) manager
                         (gh_boundary_variables box) (ExtractionRadius box) (LMax box))
                sent.

(** [SendToEvolution<GhWorldtubeBoundary, ...>]: the overload that takes the
    three tensors, and the one that takes [gh_variables] and calls it. *)
Definition apply_SendToEvolution_tensors (box : GhBox) (time : TimeStepId)
  (spacetime_metric : SpacetimeMetric) (phi : Phi) (pi : Pi) : Outcome GhBox :=
  let boundary_variables :=
    create_bondi_boundary_data (gh_boundary_variables box) phi pi spacetime_metric
      (ExtractionRadius box) (double_of_size_t (LMax box)) in
  Finished (mkGhBox (SelfStartGhInterfaceManager box) (GhInterfaceManager_ box)
                    boundary_variables (ExtractionRadius box) (LMax box))
           [ReceiveBoundaryData time boundary_variables true].

Definition apply_SendToEvolution (box : GhBox) (time : TimeStepId)
  (data : gh_variables) : Outcome GhBox :=
  apply_SendToEvolution_tensors box time
    (get_SpacetimeMetric data) (get_Phi data) (get_Pi data).

(** The boundary component running the simple actions that were invoked on
    it, one after the other; what is sent to the evolution component is
    collected. *)
Fixpoint run_invoked (box : GhBox) (invoked : list Message) : Outcome GhBox :=
  match invoked with
  | [] => Finished box []
  | InvokeSendToEvolution time data :: rest =>
      match apply_SendToEvolution box time data with
      | Finished box' sent =>
          match run_invoked box' rest with
          | Finished box'' sent' => Finished box'' (sent ++ sent')%list
          | Aborted message => Aborted message
          end
      | Aborted message => Aborted message
      end
  | _ :: rest => run_invoked box rest
  end.

(** *** What the actions send *)

Definition tensor_part (box : KleinGordonBox) : H5Box :=
  mkH5Box (kg_H5WorldtubeBoundaryDataManager box) (tensor_boundary_variables box).

Lemma H5_cases (box : H5Box) (hdf5_lock : Lock) (time : TimeStepId) :
  forall ok manager boundary_variables,
    populate_hypersurface_boundary_data
      (H5WorldtubeBoundaryDataManager box) (h5_boundary_variables box)
      (substep_time time) hdf5_lock = (ok, manager, boundary_variables) ->
    apply_H5WorldtubeBoundary box hdf5_lock time =
    if ok
    then Finished (mkH5Box manager boundary_variables)
                  [ReceiveBoundaryData time boundary_variables true]
    else Aborted ("Insufficient boundary data to proceed, exiting early at time "
                  ++ to_string (substep_time time)).
Proof.
  intros ok manager boundary_variables H. unfold apply_H5WorldtubeBoundary.
  rewrite H. now destruct ok.
Qed.

Lemma KleinGordon_cases (box : KleinGordonBox) (hdf5_lock : Lock) (time : TimeStepId) :
  forall ok manager variables kg_ok kg_manager kg_variables,
    populate_hypersurface_boundary_data
      (kg_H5WorldtubeBoundaryDataManager box) (tensor_boundary_variables box)
      (substep_time time) hdf5_lock = (ok, manager, variables) ->
    klein_gordon_populate_hypersurface_boundary_data
      (KleinGordonH5WorldtubeBoundaryDataManager box)
      (klein_gordon_boundary_variables box) (substep_time time) hdf5_lock
    = (kg_ok, kg_manager, kg_variables) ->
    apply_KleinGordonH5WorldtubeBoundary box hdf5_lock time =
    if ok
    then if kg_ok
         then Finished (mkKleinGordonBox manager kg_manager variables kg_variables)
                       [ReceiveBoundaryData time variables true;
                        ReceiveKleinGordonBoundaryData time kg_variables true]
         else Aborted ("Insufficient scalar boundary data to proceed, exiting early at "
                       ++ "time " ++ to_string (substep_time time))
    else Aborted ("Insufficient tensor boundary data to proceed, exiting early at "
                  ++ "time " ++ to_string (substep_time time)).
Proof.
  intros ok manager variables kg_ok kg_manager kg_variables H Hkg.
  unfold apply_KleinGordonH5WorldtubeBoundary. rewrite H, Hkg.
  now destruct ok, kg_ok.
Qed.

(** Whenever one of the three actions that populate the boundary data
    finishes, it has sent exactly the variables it leaves in the DataBox,
    each once, for the requested time and with [enable_if_disabled] set; the
    tensor data go first. *)
Theorem finished_actions_send_what_they_store :
  (forall box hdf5_lock time box' sent,
     apply_H5WorldtubeBoundary box hdf5_lock time = Finished box' sent ->
     sent = [ReceiveBoundaryData time (h5_boundary_variables box') true]) /\
  (forall box hdf5_lock time box' sent,
     apply_KleinGordonH5WorldtubeBoundary box hdf5_lock time = Finished box' sent ->
     sent = [ReceiveBoundaryData time (tensor_boundary_variables box') true;
             ReceiveKleinGordonBoundaryData time
               (klein_gordon_boundary_variables box') true]) /\
  (forall box time box' sent,
     apply_AnalyticWorldtubeBoundary box time = Finished box' sent ->
     sent = [ReceiveBoundaryData time (analytic_boundary_variables box') true]).
Proof.
  repeat split.
  - intros box hdf5_lock time box' sent.
    destruct (populate_hypersurface_boundary_data
                (H5WorldtubeBoundaryDataManager box) (h5_boundary_variables box)
                (substep_time time) hdf5_lock) as [[ok m] v] eqn:E.
    rewrite (H5_cases _ _ _ _ _ _ E).
    destruct ok; [|discriminate]. now intros [= <- <-].
  - intros box hdf5_lock time box' sent.
    destruct (populate_hypersurface_boundary_data
                (kg_H5WorldtubeBoundaryDataManager box) (tensor_boundary_variables box)
                (substep_time time) hdf5_lock) as [[ok m] v] eqn:E.
    destruct (klein_gordon_populate_hypersurface_boundary_data
                (KleinGordonH5WorldtubeBoundaryDataManager box)
                (klein_gordon_boundary_variables box) (substep_time time) hdf5_lock)
      as [[kok km] kv] eqn:Ek.
    rewrite (KleinGordon_cases _ _ _ _ _ _ _ _ _ E Ek).
    destruct ok, kok; try discriminate. now intros [= <- <-].
  - intros box time box' sent. unfold apply_AnalyticWorldtubeBoundary.
    destruct (analytic_populate_hypersurface_boundary_data _ _ _) as [[ok m] v].
    destruct ok; simpl; [|discriminate]. now intros [= <- <-].
Qed.

(** When the Klein-Gordon action ends in an [ERROR], the message is the one
    about tensor data exactly when populating the tensor data failed,
    whether or not populating the scalar data failed too. *)
Theorem klein_gordon_reports_tensor_failure_first
  (box : KleinGordonBox) (hdf5_lock : Lock) (time : TimeStepId) (message : string) :
  apply_KleinGordonH5WorldtubeBoundary box hdf5_lock time = Aborted message ->
  (fst (fst (populate_hypersurface_boundary_data
               (kg_H5WorldtubeBoundaryDataManager box)
               (tensor_boundary_variables box) (substep_time time) hdf5_lock))
   = false <->
   message = "Insufficient tensor boundary data to proceed, exiting early at time "
             ++ to_string (substep_time time)).
Proof.
  destruct (populate_hypersurface_boundary_data
              (kg_H5WorldtubeBoundaryDataManager box) (tensor_boundary_variables box)
              (substep_time time) hdf5_lock) as [[ok m] v] eqn:E.
  destruct (klein_gordon_populate_hypersurface_boundary_data
              (KleinGordonH5WorldtubeBoundaryDataManager box)
              (klein_gordon_boundary_variables box) (substep_time time) hdf5_lock)
    as [[kok km] kv] eqn:Ek.
  rewrite (KleinGordon_cases _ _ _ _ _ _ _ _ _ E Ek). simpl.
  destruct ok; [destruct kok|]; try discriminate; intros [= <-].
  - split; [discriminate | intros H; discriminate].
  - split; reflexivity.
Qed.

(** On the tensor data the Klein-Gordon action does what the action for
    [H5WorldtubeBoundary] does: it ends in an [ERROR] whenever that one
    does, and when it finishes, that one finishes with the same manager and
    variables and sends the first of the two messages. *)
Theorem klein_gordon_extends_h5
  (box : KleinGordonBox) (hdf5_lock : Lock) (time : TimeStepId) :
  (forall message,
     apply_H5WorldtubeBoundary (tensor_part box) hdf5_lock time = Aborted message ->
     exists message',
       apply_KleinGordonH5WorldtubeBoundary box hdf5_lock time = Aborted message') /\
  (forall box' sent,
     apply_KleinGordonH5WorldtubeBoundary box hdf5_lock time = Finished box' sent ->
     apply_H5WorldtubeBoundary (tensor_part box) hdf5_lock time =
     Finished (tensor_part box') (firstn 1 sent)).
Proof.
  destruct (populate_hypersurface_boundary_data
              (kg_H5WorldtubeBoundaryDataManager box) (tensor_boundary_variables box)
              (substep_time time) hdf5_lock) as [[ok m] v] eqn:E.
  destruct (klein_gordon_populate_hypersurface_boundary_data
              (KleinGordonH5WorldtubeBoundaryDataManager box)
              (klein_gordon_boundary_variables box) (substep_time time) hdf5_lock)
    as [[kok km] kv] eqn:Ek.
  rewrite (KleinGordon_cases _ _ _ _ _ _ _ _ _ E Ek).
  rewrite (H5_cases (tensor_part box) _ _ _ _ _ E).
  split.
  - intros message. destruct ok; [discriminate|]. intros _. eexists. reflexivity.
  - intros box' sent. destruct ok, kok; try discriminate.
    now intros [= <- <-].
Qed.

(** *** The generalized harmonic boundary *)

Lemma retrieve_data_cases (time : TimeStepId) (manager : GhInterfaceManager) :
  retrieve_data_and_send_to_evolution time manager =
  (snd (retrieve_and_remove_first_ready_gh_data (request_gh_data manager time)),
   match fst (retrieve_and_remove_first_ready_gh_data (request_gh_data manager time)) with
   | Some (data_time, data) => [InvokeSendToEvolution data_time data]
   | None => []
   end).
Proof.
  unfold retrieve_data_and_send_to_evolution.
  destruct (retrieve_and_remove_first_ready_gh_data _) as [[[t d]|] m]; reflexivity.
Qed.

(** The manager that [time] selects: the one for self start while
    [is_self_starting(time)], the other one afterwards. *)
Definition selected_manager (box : GhBox) (time : TimeStepId) : GhInterfaceManager :=
  if is_self_starting time then SelfStartGhInterfaceManager box
  else GhInterfaceManager_ box.

Definition other_manager (box : GhBox) (time : TimeStepId) : GhInterfaceManager :=
  if is_self_starting time then GhInterfaceManager_ box
  else SelfStartGhInterfaceManager box.

(** The action for [GhWorldtubeBoundary] always finishes.  It submits the
    request to the manager that [time] selects and leaves the other
    manager, the boundary variables, the extraction radius and [LMax] as
    they were; it sends nothing to the evolution component and invokes
    [SendToEvolution] at most once, exactly when the manager has data ready
    after the request, with the time and the variables of that data. *)
Theorem gh_request_touches_one_manager (box : GhBox) (time : TimeStepId) :
  exists box' sent,
    apply_GhWorldtubeBoundary box time = Finished box' sent /\
    selected_manager box' time =
      snd (retrieve_and_remove_first_ready_gh_data
             (request_gh_data (selected_manager box time) time)) /\
    other_manager box' time = other_manager box time /\
    gh_boundary_variables box' = gh_boundary_variables box /\
    ExtractionRadius box' = ExtractionRadius box /\
    LMax box' = LMax box /\
    sent = match fst (retrieve_and_remove_first_ready_gh_data
                        (request_gh_data (selected_manager box time) time)) with
           | Some (data_time, data) => [InvokeSendToEvolution data_time data]
           | None => []
           end.
Proof.
  unfold apply_GhWorldtubeBoundary, selected_manager, other_manager.
  destruct (is_self_starting time); rewrite retrieve_data_cases;
    eexists; eexists; (split; [reflexivity|]); simpl; repeat split.
Qed.

(** Data that is ready reaches the evolution component as Bondi boundary
    data: once the boundary component has run what the action invoked, it
    has sent [create_bondi_boundary_data] of the three tensors of the
    retrieved data, computed with the stored extraction radius and [LMax],
    for the time of that data; with no data ready it has sent nothing and
    the variables are as they were. *)
Theorem ready_gh_data_reaches_evolution
  (box box' : GhBox) (time : TimeStepId) (invoked : list Message) :
  apply_GhWorldtubeBoundary box time = Finished box' invoked ->
  match fst (retrieve_and_remove_first_ready_gh_data
               (request_gh_data (selected_manager box time) time)) with
  | Some (data_time, data) =>
      let bondi :=
        create_bondi_boundary_data (gh_boundary_variables box)
          (get_Phi data) (get_Pi data) (get_SpacetimeMetric data)
          (ExtractionRadius box) (double_of_size_t (LMax box)) in
      exists box'',
        run_invoked box' invoked =
          Finished box'' [ReceiveBoundaryData data_time bondi true] /\
        gh_boundary_variables box'' = bondi
  | None => run_invoked box' invoked = Finished box' []
  end.
Proof.
  unfold apply_GhWorldtubeBoundary, selected_manager.
  destruct (is_self_starting time); rewrite retrieve_data_cases;
    intros [= <- <-];
    destruct (fst (retrieve_and_remove_first_ready_gh_data _)) as [[t d]|];
    simpl; try reflexivity; eexists; split; reflexivity.
Qed.

End Actions.

Arguments Finished {TimeStepId BoundaryVariables KleinGordonVariables gh_variables Box} box sent.
Arguments Aborted {TimeStepId BoundaryVariables KleinGordonVariables gh_variables Box} message.
Arguments ReceiveBoundaryData {TimeStepId BoundaryVariables KleinGordonVariables gh_variables}.
Arguments ReceiveKleinGordonBoundaryData {TimeStepId BoundaryVariables KleinGordonVariables gh_variables}.
Arguments InvokeSendToEvolution {TimeStepId BoundaryVariables KleinGordonVariables gh_variables}.
Arguments mkKleinGordonBox {BoundaryVariables KleinGordonVariables WorldtubeDataManager KleinGordonDataManager}.
Arguments mkGhBox {double BoundaryVariables GhInterfaceManager}.
Arguments gh_boundary_variables {double BoundaryVariables GhInterfaceManager}.

(** *** Toy collaborators

    Times are natural numbers; a data manager is the list of the times it
    has data for and writes the time into the variables; the interface
    manager is the queue of the data that is ready, each with its time. *)

Definition toy_to_string (t : nat) : string :=
  string_of_list_ascii (repeat "|"%char t).

Definition toy_populate (manager : list nat) (variables : nat) (t : nat) (lock : unit)
  : bool * list nat * nat :=
  if existsb (Nat.eqb t) manager then (true, manager, t) else (false, manager, variables).

Definition toy_retrieve (manager : list (nat * nat))
  : option (nat * nat) * list (nat * nat) :=
  match manager with
  | [] => (None, [])
  | ready :: rest => (Some ready, rest)
  end.

Definition toy_create_bondi (variables phi pi metric radius l : nat) : nat :=
  variables + phi + pi + metric + radius + l.

Definition toy_KleinGordon
  (box : KleinGordonBox nat nat (list nat) (list nat)) (time : nat)
  : Outcome nat nat nat nat (KleinGordonBox nat nat (list nat) (list nat)) :=
  apply_KleinGordonH5WorldtubeBoundary nat nat (fun t => t) toy_to_string unit
    nat nat (list nat) (list nat) toy_populate toy_populate nat box tt time.

Definition toy_Gh (box : GhBox nat nat (list (nat * nat))) (time : nat)
  : Outcome nat nat nat nat (GhBox nat nat (list (nat * nat))) :=
  apply_GhWorldtubeBoundary nat nat (fun t => Nat.eqb t 0) nat nat
    (list (nat * nat)) nat (fun manager _ => manager) toy_retrieve box time.

Definition toy_run_invoked (box : GhBox nat nat (list (nat * nat)))
  (invoked : list (Message nat nat nat nat))
  : Outcome nat nat nat nat (GhBox nat nat (list (nat * nat))) :=
  run_invoked nat nat nat nat (list (nat * nat)) nat nat nat nat
    (fun d => d) (fun d => d + 1) (fun d => d + 2) (fun n => n)
    toy_create_bondi box invoked.

(** The tensor data lack the time 3 and so do the scalar data: the message
    is the one about tensor data. *)
Lemma klein_gordon_reports_tensor_failure_first_witness :
  toy_KleinGordon (mkKleinGordonBox [1; 2] [1] 0 0) 3
  = Aborted ("Insufficient tensor boundary data to proceed, exiting early at time "
             ++ "|||") /\
  (fst (fst (toy_populate [1; 2] 0 3 tt)) = false <->
   "Insufficient tensor boundary data to proceed, exiting early at time " ++ "|||"
   = "Insufficient tensor boundary data to proceed, exiting early at time "
     ++ toy_to_string 3).
Proof.
  split; [reflexivity|].
  exact (klein_gordon_reports_tensor_failure_first nat nat (fun t => t) toy_to_string
           unit nat nat (list nat) (list nat) toy_populate toy_populate nat
           (mkKleinGordonBox [1; 2] [1] 0 0) tt 3 _ eq_refl).
Defined.

(** Data for the time 5 is ready when the time 7 is requested: the evolution
    component receives the Bondi data for the time 5. *)
Lemma ready_gh_data_reaches_evolution_witness :
  toy_Gh (mkGhBox [] [(5, 40); (7, 41)] 0 100 8) 7
  = Finished (mkGhBox [] [(7, 41)] 0 100 8) [InvokeSendToEvolution 5 40] /\
  exists box'',
    toy_run_invoked (mkGhBox [] [(7, 41)] 0 100 8) [InvokeSendToEvolution 5 40]
    = Finished box'' [ReceiveBoundaryData 5 231 true] /\
    gh_boundary_variables box'' = 231.
Proof.
  split; [reflexivity|].
  exact (ready_gh_data_reaches_evolution nat nat (fun t => Nat.eqb t 0) nat nat
           (list (nat * nat)) nat (fun manager _ => manager) toy_retrieve
           nat nat nat (fun d => d) (fun d => d + 1) (fun d => d + 2) (fun n => n)
           toy_create_bondi
           (mkGhBox [] [(5, 40); (7, 41)] 0 100 8)
           (mkGhBox [] [(7, 41)] 0 100 8)
           7 [InvokeSendToEvolution 5 40] eq_refl).
Defined.

Definition toy_H5 (box : H5Box nat (list nat)) (time : nat)
  : Outcome nat nat nat nat (H5Box nat (list nat)) :=
  apply_H5WorldtubeBoundary nat nat (fun t => t) toy_to_string unit
    nat nat (list nat) toy_populate nat box tt time.

(** Both managers have data for the time 2. *)
Lemma finished_actions_send_what_they_store_witness :
  toy_KleinGordon (mkKleinGordonBox [1; 2] [2] 0 0) 2
  = Finished (mkKleinGordonBox [1; 2] [2] 2 2)
             [ReceiveBoundaryData 2 2 true; ReceiveKleinGordonBoundaryData 2 2 true] /\
  [ReceiveBoundaryData 2 2 true; ReceiveKleinGordonBoundaryData 2 2 true]
  = [ReceiveBoundaryData (KleinGordonVariables := nat) (gh_variables := nat) 2
       (tensor_boundary_variables nat nat (list nat) (list nat)
          (mkKleinGordonBox [1; 2] [2] 2 2)) true;
     ReceiveKleinGordonBoundaryData 2
       (klein_gordon_boundary_variables nat nat (list nat) (list nat)
          (mkKleinGordonBox [1; 2] [2] 2 2)) true].
Proof.
  split; [reflexivity|].
  exact (proj1 (proj2
           (finished_actions_send_what_they_store nat nat (fun t => t) toy_to_string
              toy_to_string unit nat nat (list nat) (list nat) unit
              toy_populate toy_populate (fun m v t => (true, m, t)) nat))
           (mkKleinGordonBox [1; 2] [2] 0 0) tt 2 (mkKleinGordonBox [1; 2] [2] 2 2)
           _ eq_refl).
Defined.

(** Both managers have data for the time 2: both actions finish and agree
    on the tensor data. *)
Lemma klein_gordon_extends_h5_witness :
  toy_KleinGordon (mkKleinGordonBox [1; 2] [2] 0 0) 2
  = Finished (mkKleinGordonBox [1; 2] [2] 2 2)
             [ReceiveBoundaryData 2 2 true; ReceiveKleinGordonBoundaryData 2 2 true] /\
  toy_H5 (tensor_part nat nat (list nat) (list nat) (mkKleinGordonBox [1; 2] [2] 0 0)) 2
  = Finished (tensor_part nat nat (list nat) (list nat) (mkKleinGordonBox [1; 2] [2] 2 2))
             [ReceiveBoundaryData 2 2 true].
Proof.
  split; [reflexivity|].
  exact (proj2
           (klein_gordon_extends_h5 nat nat (fun t => t) toy_to_string unit
              nat nat (list nat) (list nat) toy_populate toy_populate nat
              (mkKleinGordonBox [1; 2] [2] 0 0) tt 2)
           (mkKleinGordonBox [1; 2] [2] 2 2)
           [ReceiveBoundaryData 2 2 true; ReceiveKleinGordonBoundaryData 2 2 true]
           eq_refl).
Defined.

End Cce.

(** ** Initializing an interpolation target

    Shallow embedding of
    [src/NumericalAlgorithms/Interpolation/InitializeInterpolationTarget.hpp].
    The type lists of the header become lists of tags and the DataBox the
    list of its items in the order of its tag list; the choice between the
    overloads of [apply], made by their [Requires] clauses at compile time,
    becomes a function of the tag list. *)

Module Intrp.

Inductive Tag : Type :=
| IndicesOfFilledInterpPoints
| TemporalIds
| CompletedTemporalIds
| Domain
| Variables_vars_to_interpolate_to_target
| OtherTag (n : nat).

Definition Tag_eqb (a b : Tag) : bool :=
  match a, b with
  | IndicesOfFilledInterpPoints, IndicesOfFilledInterpPoints => true
  | TemporalIds, TemporalIds => true
  | CompletedTemporalIds, CompletedTemporalIds => true
  | Domain, Domain => true
  | Variables_vars_to_interpolate_to_target, Variables_vars_to_interpolate_to_target => true
  | OtherTag n, OtherTag k => Nat.eqb n k
  | _, _ => false
  end.

(** [tmpl::list_contains_v] *)
Definition list_contains_v (tags : list Tag) (tag : Tag) : bool :=
  existsb (Tag_eqb tag) tags.

Section Action.

(** The value of an item, the value-initialised item of a tag
    ([db::item_type<Tag>{}]) and the global cache. *)
Variable Item : Type.
Variable default_item : Tag -> Item.
Variable ConstGlobalCache : Type.

Definition DataBox : Type := list (Tag * Item).

Definition DbTagsList (box : DataBox) : list Tag := map fst box.

(** [db::create_from<db::RemoveTags<>, AddTags>(box, args...)].  DataBox.hpp
    is not among the sources; with no tag to remove, the call is taken to
    keep every item of [box] and to add the new tags with the given values
    after them. *)
Definition create_from (box : DataBox) (added : list (Tag * Item)) : DataBox :=
  box ++ added.

(** What the action reads of [InterpolationTargetTag]:
    [compute_target_points::initialization_tags], which need not be defined,
    and [compute_target_points::initialize]. *)
Record InterpolationTargetTag : Type := mkInterpolationTargetTag {
  compute_target_points_initialization_tags : option (list Tag);
  compute_target_points_initialize : DataBox -> ConstGlobalCache -> DataBox
}.

(** [initialize_interpolation_target_detail] *)
Definition initialization_tags (T : InterpolationTargetTag) : list Tag :=
  match compute_target_points_initialization_tags T with
  | Some tags => tags
  | None => []
  end.

Definition has_empty_initialization_tags_v (T : InterpolationTargetTag) : bool :=
  Nat.eqb (length (initialization_tags T)) 0.

Definition make_tuple_of_box (T : InterpolationTargetTag) (box : DataBox)
  (cache : ConstGlobalCache) : DataBox :=
  if has_empty_initialization_tags_v T then box
  else compute_target_points_initialize T box cache.

(** [InitializeInterpolationTarget] *)
Definition return_tag_list_initial : list Tag :=
  [IndicesOfFilledInterpPoints; TemporalIds; CompletedTemporalIds;
   Variables_vars_to_interpolate_to_target].

Definition return_tag_list (T : InterpolationTargetTag) : list Tag :=
  return_tag_list_initial ++ initialization_tags T.

Definition AddOptionsToDataBox_apply (box : DataBox) (domain : Item) : DataBox :=
  create_from box [(Domain, domain)].

(** The [Requires] clauses of the two overloads of [apply]. *)
Definition requires_initializing (tags : list Tag) : bool :=
  list_contains_v tags Domain && negb (list_contains_v tags IndicesOfFilledInterpPoints).

Definition requires_initialized (tags : list Tag) : bool :=
  list_contains_v tags IndicesOfFilledInterpPoints.

Definition apply_initializing (T : InterpolationTargetTag) (box : DataBox)
  (cache : ConstGlobalCache) : DataBox :=
  make_tuple_of_box T
    (create_from box (map (fun tag => (tag, default_item tag)) return_tag_list_initial))
    cache.

Definition apply_initialized (box : DataBox) : DataBox := box.

(** The call [apply(box, ...)]: the overload whose clause holds; the call
    does not compile when none does or when both do. *)
Definition apply (T : InterpolationTargetTag) (box : DataBox) (cache : ConstGlobalCache)
  : option DataBox :=
  match requires_initializing (DbTagsList box), requires_initialized (DbTagsList box) with
  | true, false => Some (apply_initializing T box cache)
  | false, true => Some (apply_initialized box)
  | _, _ => None
  end.

Lemma Tag_eqb_spec (a b : Tag) : Tag_eqb a b = true <-> a = b.
Proof.
  destruct a, b; simpl; try (split; [discriminate | intros H; discriminate]);
    try (split; reflexivity).
  rewrite Nat.eqb_eq. split; [intros ->; reflexivity | intros [= ->]; reflexivity].
Qed.

Lemma list_contains_v_In (tags : list Tag) (tag : Tag) :
  list_contains_v tags tag = true <-> In tag tags.
Proof.
  unfold list_contains_v. rewrite existsb_exists. split.
  - intros (x & Hx & Heq). apply Tag_eqb_spec in Heq. now subst.
  - intros H. exists tag. split; [exact H | now apply Tag_eqb_spec].
Qed.

Lemma DbTagsList_create_from (box : DataBox) (added : list (Tag * Item)) :
  DbTagsList (create_from box added) = DbTagsList box ++ map fst added.
Proof. unfold DbTagsList, create_from. apply map_app. Qed.

Lemma initializing_adds_indices (box : DataBox) :
  In IndicesOfFilledInterpPoints
     (DbTagsList (create_from box
        (map (fun tag => (tag, default_item tag)) return_tag_list_initial))).
Proof.
  rewrite DbTagsList_create_from. apply in_or_app. right. simpl. auto.
Qed.

(** The two [Requires] clauses never hold together, so a call of [apply] is
    never ambiguous; it compiles exactly when the DataBox holds the domain
    or is initialized already, and the DataBox that [AddOptionsToDataBox]
    returns is one it compiles for. *)
Theorem apply_overloads_are_exclusive
  (T : InterpolationTargetTag) (box : DataBox) (cache : ConstGlobalCache) :
  requires_initializing (DbTagsList box) && requires_initialized (DbTagsList box)
    = false /\
  (apply T box cache = None <->
   ~ In Domain (DbTagsList box) /\ ~ In IndicesOfFilledInterpPoints (DbTagsList box)) /\
  (forall domain, apply T (AddOptionsToDataBox_apply box domain) cache <> None).
Proof.
  assert (Hnone : forall b : DataBox,
             apply T b cache = None <->
             ~ In Domain (DbTagsList b) /\
             ~ In IndicesOfFilledInterpPoints (DbTagsList b)).
  { intros b. unfold apply, requires_initializing, requires_initialized.
    rewrite <- !list_contains_v_In.
    destruct (list_contains_v (DbTagsList b) Domain),
             (list_contains_v (DbTagsList b) IndicesOfFilledInterpPoints); simpl;
      split; try discriminate; try (intros [H1 H2]; congruence).
    intros _. split; discriminate. }
  split; [|split].
  - unfold requires_initializing, requires_initialized.
    destruct (list_contains_v (DbTagsList box) Domain),
             (list_contains_v (DbTagsList box) IndicesOfFilledInterpPoints);
      reflexivity.
  - apply Hnone.
  - intros domain H. apply Hnone in H as [H _]. apply H.
    unfold AddOptionsToDataBox_apply. rewrite DbTagsList_create_from.
    apply in_or_app. right. simpl. auto.
Qed.

(** Running the action on the DataBox it has returned changes nothing: the
    second call takes the overload for an initialized DataBox.  This needs
    [compute_target_points::initialize] to keep the tag
    [IndicesOfFilledInterpPoints]. *)
Theorem initialization_is_idempotent
  (T : InterpolationTargetTag) (box box' : DataBox) (cache : ConstGlobalCache) :
  (forall b, In IndicesOfFilledInterpPoints (DbTagsList b) ->
             In IndicesOfFilledInterpPoints
                (DbTagsList (compute_target_points_initialize T b cache))) ->
  apply T box cache = Some box' ->
  apply T box' cache = Some box'.
Proof.
  intros Hkeeps Happly.
  assert (Hin : In IndicesOfFilledInterpPoints (DbTagsList box')).
  { unfold apply, requires_initializing, requires_initialized in Happly.
    destruct (list_contains_v (DbTagsList box) IndicesOfFilledInterpPoints) eqn:Hi.
    - rewrite andb_false_r in Happly. injection Happly as <-.
      now apply list_contains_v_In.
    - destruct (list_contains_v (DbTagsList box) Domain); simpl in Happly;
        [|discriminate].
      injection Happly as <-. unfold apply_initializing, make_tuple_of_box.
      destruct (has_empty_initialization_tags_v T).
      + apply initializing_adds_indices.
      + apply Hkeeps, initializing_adds_indices. }
  apply list_contains_v_In in Hin.
  unfold apply, requires_initializing, requires_initialized.
  rewrite Hin, andb_false_r. reflexivity.
Qed.

(** For a target without initialization tags of its own, the action run on
    a DataBox that holds the domain and is not initialized keeps every item
    and appends value-initialised items, whose tags are exactly
    [return_tag_list]. *)
Theorem initializing_appends_return_tag_list
  (T : InterpolationTargetTag) (box : DataBox) (cache : ConstGlobalCache) :
  has_empty_initialization_tags_v T = true ->
  In Domain (DbTagsList box) ->
  ~ In IndicesOfFilledInterpPoints (DbTagsList box) ->
  exists added,
    apply T box cache = Some (box ++ added) /\
    map fst added = return_tag_list T /\
    Forall (fun item => snd item = default_item (fst item)) added.
Proof.
  intros Hempty Hdom Hind.
  exists (map (fun tag => (tag, default_item tag)) return_tag_list_initial).
  split; [|split].
  - unfold apply, requires_initializing, requires_initialized.
    apply list_contains_v_In in Hdom. rewrite Hdom.
    destruct (list_contains_v (DbTagsList box) IndicesOfFilledInterpPoints) eqn:Hi.
    + apply list_contains_v_In in Hi. contradiction.
    + simpl. unfold apply_initializing, make_tuple_of_box. now rewrite Hempty.
  - unfold return_tag_list.
    unfold has_empty_initialization_tags_v in Hempty. apply Nat.eqb_eq in Hempty.
    apply length_zero_iff_nil in Hempty. rewrite Hempty, app_nil_r. reflexivity.
  - repeat constructor.
Qed.

End Action.

(** A target that defines no initialization tags, with natural numbers for
    the items. *)
Definition plain_target : InterpolationTargetTag nat unit :=
  mkInterpolationTargetTag nat unit None (fun box _ => box).

Lemma initialization_is_idempotent_witness :
  apply nat (fun _ => 0) unit plain_target [(Domain, 3)] tt
  = Some [(Domain, 3); (IndicesOfFilledInterpPoints, 0); (TemporalIds, 0);
          (CompletedTemporalIds, 0); (Variables_vars_to_interpolate_to_target, 0)] /\
  apply nat (fun _ => 0) unit plain_target
    [(Domain, 3); (IndicesOfFilledInterpPoints, 0); (TemporalIds, 0);
     (CompletedTemporalIds, 0); (Variables_vars_to_interpolate_to_target, 0)] tt
  = Some [(Domain, 3); (IndicesOfFilledInterpPoints, 0); (TemporalIds, 0);
          (CompletedTemporalIds, 0); (Variables_vars_to_interpolate_to_target, 0)].
Proof.
  split; [reflexivity|].
  exact (initialization_is_idempotent nat (fun _ => 0) unit plain_target
           [(Domain, 3)] _ tt (fun b H => H) eq_refl).
Defined.

Lemma initializing_appends_return_tag_list_witness :
  has_empty_initialization_tags_v nat unit plain_target = true /\
  In Domain (DbTagsList nat [(OtherTag 1, 7); (Domain, 3)]) /\
  exists added,
    apply nat (fun _ => 0) unit plain_target [(OtherTag 1, 7); (Domain, 3)] tt
    = Some ([(OtherTag 1, 7); (Domain, 3)] ++ added) /\
    map fst added = return_tag_list nat unit plain_target.
Proof.
  assert (Hdom : In Domain (DbTagsList nat [(OtherTag 1, 7); (Domain, 3)]))
    by (simpl; auto).
  split; [reflexivity|]. split; [exact Hdom|].
  destruct (initializing_appends_return_tag_list nat (fun _ => 0) unit plain_target
              [(OtherTag 1, 7); (Domain, 3)] tt eq_refl Hdom)
    as (added & Happly & Htags & _).
  - simpl. intros [H|[H|[]]]; discriminate.
  - exists added. split; assumption.
Defined.

End Intrp.

(** ** Build information

    Shallow embedding of [src/Informer/InfoAtCompile.cpp].  The file is
    configured by CMake: each [@NAME@] is replaced by a text, taken here as
    the characters of the string it stands in.  [git_branch],
    [git_description] and [link_date] are declared in InfoFromBuild.hpp,
    which is not among the sources; their results are part of the
    configuration. *)

Module BuildInfo.

Import String Ascii.
Local Open Scope string_scope.

Record Configuration : Type := mkConfiguration {
  SPECTRE_VERSION : string;
  HOSTNAME : string;
  CMAKE_BINARY_DIR : string;
  CMAKE_SOURCE_DIR : string;
  git_branch : string;
  git_description : string;
  link_date : string;
  SPECTRE_DEBUG : bool
}.

(** The character ["\n"]. *)
Definition newline : ascii := "010"%char.
Definition nl : string := String newline EmptyString.

Definition spectre_version (cfg : Configuration) : string := SPECTRE_VERSION cfg.

Definition unit_test_build_path (cfg : Configuration) : string :=
  CMAKE_BINARY_DIR cfg ++ "/tests/Unit/".

Definition unit_test_src_path (cfg : Configuration) : string :=
  CMAKE_SOURCE_DIR cfg ++ "/tests/Unit/".

Definition info_from_build (cfg : Configuration) : string :=
  "SpECTRE Build Information:" ++ nl ++
  "Version:                      " ++ spectre_version cfg ++ nl ++
  "Compiled on host:             " ++ HOSTNAME cfg ++ nl ++
  "Compiled in directory:        " ++ CMAKE_BINARY_DIR cfg ++ nl ++
  "Source directory is:          " ++ CMAKE_SOURCE_DIR cfg ++ nl ++
  "Compiled on git branch:       " ++ git_branch cfg ++ nl ++
  "Compiled on git revision:     " ++ git_description cfg ++ nl ++
  "Linked on:                    " ++ link_date cfg ++ nl ++
  (if SPECTRE_DEBUG cfg
   then "Build type:                   Debug" ++ nl
   else "Build type:                   Release" ++ nl).

(** *** Reading the text line by line *)

Fixpoint has_newline (s : string) : bool :=
  match s with
  | EmptyString => false
  | String c rest => Ascii.eqb c newline || has_newline rest
  end.

(** The lines of a text, each ended by a newline; what follows the last
    newline is a line when it is not empty.  [current] is the part of the
    line read so far. *)
Fixpoint lines_from (current : string) (s : string) : list string :=
  match s with
  | EmptyString => match current with EmptyString => [] | _ => [current] end
  | String c rest =>
      if Ascii.eqb c newline then current :: lines_from EmptyString rest
      else lines_from (current ++ String c EmptyString) rest
  end.

Definition lines (s : string) : list string := lines_from EmptyString s.

(** The values printed, in the order of their lines. *)
Definition printed_values (cfg : Configuration) : list string :=
  [spectre_version cfg; HOSTNAME cfg; CMAKE_BINARY_DIR cfg; CMAKE_SOURCE_DIR cfg;
   git_branch cfg; git_description cfg; link_date cfg;
   if SPECTRE_DEBUG cfg then "Debug" else "Release"].

Definition configured_without_newline (cfg : Configuration) : Prop :=
  has_newline (SPECTRE_VERSION cfg) = false /\
  has_newline (HOSTNAME cfg) = false /\
  has_newline (CMAKE_BINARY_DIR cfg) = false /\
  has_newline (CMAKE_SOURCE_DIR cfg) = false /\
  has_newline (git_branch cfg) = false /\
  has_newline (git_description cfg) = false /\
  has_newline (link_date cfg) = false.

Lemma append_assoc (a b c : string) : (a ++ b) ++ c = a ++ b ++ c.
Proof. induction a as [|x a IH]; simpl; [reflexivity | now rewrite IH]. Qed.

Lemma append_empty_r (a : string) : a ++ "" = a.
Proof. induction a as [|x a IH]; simpl; [reflexivity | now rewrite IH]. Qed.

Lemma lines_from_line (current v rest : string) :
  has_newline v = false ->
  lines_from current (v ++ nl ++ rest) = (current ++ v) :: lines_from EmptyString rest.
Proof.
  revert current; induction v as [|c v IH]; intros current Hv; simpl in *.
  - now rewrite append_empty_r.
  - apply orb_false_iff in Hv as [Hc Hv]. rewrite Hc, IH by exact Hv.
    now rewrite append_assoc.
Qed.

Lemma has_newline_append (a b : string) :
  has_newline (a ++ b) = has_newline a || has_newline b.
Proof.
  induction a as [|c a IH]; simpl; [reflexivity|]. now rewrite IH, orb_assoc.
Qed.

(** A label followed by a value and the end of the line. *)
Lemma lines_labelled (label value rest : string) :
  has_newline label = false -> has_newline value = false ->
  lines_from EmptyString (label ++ value ++ nl ++ rest)
  = (label ++ value) :: lines_from EmptyString rest.
Proof.
  intros Hl Hv. rewrite <- append_assoc.
  rewrite lines_from_line; [reflexivity|].
  rewrite has_newline_append, Hl, Hv. reflexivity.
Qed.

Lemma length_append (a b : string) : length (a ++ b) = (length a + length b)%nat.
Proof. induction a as [|x a IH]; simpl; [reflexivity | now rewrite IH]. Qed.

Lemma append_cancel_r (a b suffix : string) : a ++ suffix = b ++ suffix -> a = b.
Proof.
  intros H.
  assert (Hlen : length a = length b).
  { apply (f_equal length) in H. rewrite !length_append in H. lia. }
  revert b H Hlen; induction a as [|x a IH]; intros [|y b] H Hlen;
    simpl in *; try discriminate; [reflexivity|].
  injection H as -> H. f_equal. apply IH; [exact H | lia].
Qed.

(** When no configured text contains a newline, the build information is
    the title line followed by eight lines, one per value in the order of
    [printed_values], and on each of them the value starts in column 30,
    after a label that is padded to that width. *)
Theorem info_from_build_is_aligned (cfg : Configuration) :
  configured_without_newline cfg ->
  exists fields : list string,
    lines (info_from_build cfg) = "SpECTRE Build Information:" :: fields /\
    Forall2 (fun line value =>
               exists label, line = label ++ value /\ length label = 30%nat)
            fields (printed_values cfg).
Proof.
  intros (Hv & Hh & Hb & Hs & Hg & Hd & Hl).
  unfold lines, info_from_build.
  rewrite (lines_from_line "" "SpECTRE Build Information:") by reflexivity.
  unfold spectre_version, printed_values.
  rewrite !lines_labelled by (try reflexivity; assumption).
  eexists. split; [reflexivity|].
  repeat (constructor; [eexists; split; [reflexivity | reflexivity]|]).
  destruct (SPECTRE_DEBUG cfg); simpl;
    (constructor;
     [exists "Build type:                   "; split; reflexivity | constructor]).
Qed.

(** The two paths of the unit tests end in [/tests/Unit/] and are one path
    exactly when the build directory is the source directory. *)
Theorem unit_test_paths_coincide_in_source_builds (cfg : Configuration) :
  unit_test_build_path cfg = unit_test_src_path cfg <->
  CMAKE_BINARY_DIR cfg = CMAKE_SOURCE_DIR cfg.
Proof.
  unfold unit_test_build_path, unit_test_src_path. split.
  - apply append_cancel_r.
  - now intros ->.
Qed.

Definition example_configuration : Configuration :=
  mkConfiguration "1.0" "node7" "/build" "/src" "develop" "v1.0-3-gabc" "today" false.

Lemma info_from_build_is_aligned_witness :
  configured_without_newline example_configuration /\
  exists fields : list string,
    lines (info_from_build example_configuration)
    = "SpECTRE Build Information:" :: fields /\
    List.length fields = 8%nat.
Proof.
  assert (H : configured_without_newline example_configuration)
    by (repeat split).
  split; [exact H|].
  destruct (info_from_build_is_aligned example_configuration H) as (fields & Hl & Hf).
  exists fields. split; [exact Hl|].
  apply Forall2_length in Hf. exact Hf.
Defined.

End BuildInfo.

(** ** The storage scheme as a whole

    The comment at [coefficients()] says that the reality condition makes it
    unnecessary to store real and imaginary parts for both signs of [m]:
    the real numbers stored for all [(l,m)] and the families of complex
    coefficients obeying the condition determine each other. *)

Module StorageScheme.

Import Spectral.
Open Scope R_scope.

(** The stored values of a family of coefficients. *)
Definition stored (F : nat -> Z -> C) (l : nat) (m : Z) : R := stored_value m (F l m).

(** Any reals are the stored values of a family that obeys the reality
    condition, [expansion_coefficient] of them; and a family that obeys the
    condition is [expansion_coefficient] of its stored values, so that two
    such families with the same stored values are equal. *)
Theorem storage_scheme_is_a_bijection :
  (forall p : nat -> Z -> R,
     real_valued (expansion_coefficient p) /\
     forall l m, stored (expansion_coefficient p) l m = p l m) /\
  (forall F : nat -> Z -> C,
     real_valued F ->
     forall l m, expansion_coefficient (stored F) l m = F l m) /\
  (forall F G : nat -> Z -> C,
     real_valued F -> real_valued G ->
     (forall l m, stored F l m = stored G l m) ->
     forall l m, F l m = G l m).
Proof.
  split; [|split].
  - intros p. split; [apply expansion_coefficient_real_valued|].
    intros l m. apply stored_value_expansion_coefficient.
  - intros F HF l m. exact (expansion_coefficient_stored F l m HF).
  - intros F G HF HG Hsame l m.
    rewrite <- (expansion_coefficient_stored F l m HF).
    rewrite <- (expansion_coefficient_stored G l m HG).
    apply expansion_coefficient_ext; apply Hsame.
Qed.

(** The family whose only coefficients are [F^{1,1} = i] and, as the
    reality condition demands, [F^{1,-1} = i]. *)
Definition dipole (l : nat) (m : Z) : C :=
  if (Nat.eqb l 1 && (Z.eqb m 1 || Z.eqb m (-1)))%bool then (0, 1) else (0, 0).

Lemma dipole_real_valued : real_valued dipole.
Proof.
  intros l m. unfold dipole, Cscale, Cconj, Re, Im.
  destruct (Nat.eqb l 1); simpl; [|f_equal; ring].
  destruct (Z.eqb_spec m 1) as [->|H1].
  - simpl. unfold minus_one_pow; simpl. f_equal; ring.
  - destruct (Z.eqb_spec m (-1)) as [->|H2].
    + simpl. unfold minus_one_pow; simpl. f_equal; ring.
    + destruct (Z.eqb_spec (- m) 1) as [H|_]; [lia|].
      destruct (Z.eqb_spec (- m) (-1)) as [H|_]; [lia|].
      simpl. f_equal; ring.
Qed.

Lemma storage_scheme_is_a_bijection_witness :
  real_valued dipole /\ expansion_coefficient (stored dipole) 1 1 = dipole 1 1.
Proof.
  split; [exact dipole_real_valued|].
  exact (proj1 (proj2 storage_scheme_is_a_bijection) dipole dipole_real_valued 1%nat 1%Z).
Defined.

End StorageScheme.
